(** * debucon: batch conversion orchestration, archive assembly and the
      image conversion endpoint

    A shallow embedding of the TypeScript sources:

    - [components/AudioConverter.tsx]  (audio pipeline, ffmpeg.wasm engine),
    - the windowed [ImageConverter] component (image pipeline),
    - [app/api/convert/route.ts] and its optimized successor (the endpoint),
    - [components/ImageConverter.tsx]  (the sequential image component),
    - the page component (theme preference).

    React state is modelled by explicit state passing: a [Component] record
    holds the values of the [useState] cells, an updater
    [setFileStates(prev => prev.map(...))] is a function on the list held in
    the record.  The body of an [async] function is cut at its [await]s: the
    suspended continuation is a value of type [Cont], and one step of the
    relation [step] is one synchronous segment between two suspension
    points. *)

From Stdlib Require Import ZArith Ascii String DecimalString DecimalPos DecimalN.
From stdpp Require Import base tactics option list relations strings gmap.

Local Open Scope string_scope.

(** ** JavaScript strings

    Strings are sequences of code units below 256 (ASCII and Latin-1); the
    functions below follow ECMA-262 on that alphabet. *)

Module JS.

(** [s.split('.')[0]] for a one-character separator: the text before its
    first occurrence, the whole string when it does not occur. *)
Fixpoint split_head (sep : ascii) (s : string) : string :=
  match s with
  | EmptyString => EmptyString
  | String c r => if Ascii.eqb c sep then EmptyString else String c (split_head sep r)
  end.

(** [s.lastIndexOf(c)], [-1] when [c] does not occur. *)
Fixpoint lastIndexOf_from (c : ascii) (s : string) (i : Z) (found : Z) : Z :=
  match s with
  | EmptyString => found
  | String d r => lastIndexOf_from c r (i + 1)%Z (if Ascii.eqb d c then i else found)
  end.

Definition lastIndexOf (c : ascii) (s : string) : Z := lastIndexOf_from c s 0%Z (-1)%Z.

Definition clamp (lo hi x : Z) : Z := Z.max lo (Z.min hi x).

(** [s.substring(a, b)]: both arguments are clamped into [0, length] and
    swapped when [a > b]. *)
Definition substring (s : string) (a b : Z) : string :=
  let n := Z.of_nat (String.length s) in
  let a' := clamp 0%Z n a in
  let b' := clamp 0%Z n b in
  let lo := Z.min a' b' in
  let hi := Z.max a' b' in
  String.substring (Z.to_nat lo) (Z.to_nat (hi - lo)%Z) s.

(** [x || y] on strings: the empty string is falsy. *)
Definition or_string (x y : string) : string :=
  match x with EmptyString => y | _ => x end.

(** Lower case of one code unit: [A]-[Z], and the Latin-1 capitals
    [U+00C0]-[U+00DE] except the multiplication sign [U+00D7]. *)
Definition lower_ascii (c : ascii) : ascii :=
  let n := nat_of_ascii c in
  if ((65 <=? n)%nat && (n <=? 90)%nat)
     || ((192 <=? n)%nat && (n <=? 222)%nat && negb (n =? 215)%nat)
  then ascii_of_nat (n + 32) else c.

Fixpoint toLowerCase (s : string) : string :=
  match s with
  | EmptyString => EmptyString
  | String c r => String (lower_ascii c) (toLowerCase r)
  end.

Fixpoint startsWith (s p : string) : bool :=
  match p, s with
  | EmptyString, _ => true
  | String a p', String b s' => Ascii.eqb a b && startsWith s' p'
  | String _ _, EmptyString => false
  end.

Fixpoint includes (s p : string) : bool :=
  startsWith s p ||
  match s with
  | EmptyString => false
  | String _ r => includes r p
  end.

Definition endsWith (s p : string) : bool :=
  let n := String.length s in
  let m := String.length p in
  (m <=? n)%nat && String.eqb (String.substring (n - m) m s) p.

(** [s.replace(/\.[^.]+$/, '')]: the last dot and what follows it are
    removed when at least one character follows that dot. *)
Definition strip_extension (s : string) : string :=
  let p := lastIndexOf "." s in
  if (0 <=? p)%Z && (p + 1 <? Z.of_nat (String.length s))%Z
  then substring s 0%Z p
  else s.

(** Decimal rendering of a non-negative integer ([n.toString()]). *)
Definition toString (n : N) : string := NilZero.string_of_uint (N.to_uint n).

(** [(bytes / 1024).toFixed(1)]: division by 1024 is exact on doubles for
    every byte count below 2^53, and [toFixed] picks the nearest tenth,
    the larger one on a tie. *)
Definition toFixed1_kb (bytes : N) : string :=
  let t := ((20 * bytes + 1024) / 2048)%N in
  toString (t / 10)%N ++ "." ++ toString (t mod 10)%N.

(** *** [parseInt]

    [None] stands for [NaN].  Leading white space is skipped, an optional
    sign is read, a [0x]/[0X] prefix selects radix 16, and the longest
    prefix of digits is converted; [NaN] when that prefix is empty.  The
    value is kept as an exact integer. *)

(** White space below 256: tab, line feed, vertical tab, form feed,
    carriage return, space and no-break space. *)
Definition is_space (c : ascii) : bool :=
  let n := nat_of_ascii c in
  ((9 <=? n)%nat && (n <=? 13)%nat) || (n =? 32)%nat || (n =? 160)%nat.

Fixpoint trimStart (s : string) : string :=
  match s with
  | String c r => if is_space c then trimStart r else s
  | EmptyString => EmptyString
  end.

Definition digit_value (radix : Z) (c : ascii) : option Z :=
  let n := Z.of_nat (nat_of_ascii c) in
  let v := (if (48 <=? n) && (n <=? 57) then n - 48
            else if (97 <=? n) && (n <=? 122) then n - 87
            else if (65 <=? n) && (n <=? 90) then n - 55
            else 36)%Z in
  if (v <? radix)%Z then Some v else None.

Fixpoint digits_from (radix : Z) (s : string) (acc : option Z) : option Z :=
  match s with
  | EmptyString => acc
  | String c r =>
      match digit_value radix c with
      | Some v => digits_from radix r (Some (radix * default 0 acc + v)%Z)
      | None => acc
      end
  end.

Definition parseInt (input : string) : option Z :=
  let s := trimStart input in
  let '(sign, s) :=
    match s with
    | String "-" r => ((-1)%Z, r)
    | String "+" r => (1%Z, r)
    | _ => (1%Z, s)
    end in
  let '(radix, s) :=
    match s with
    | String "0" (String "x" r) => (16%Z, r)
    | String "0" (String "X" r) => (16%Z, r)
    | _ => (10%Z, s)
    end in
  (λ v, sign * v)%Z <$> digits_from radix s None.

(** [x || d] on numbers: [NaN] and zero are falsy. *)
Definition or_number (x : option Z) (d : Z) : Z :=
  match x with
  | Some v => if (v =? 0)%Z then d else v
  | None => d
  end.

(** A thrown value: an [Error] instance with its message, or anything
    else. *)
Inductive Thrown :=
  | ErrorObject (message : string)
  | NonError.

End JS.

(** ** Data model *)

Module File.
(** A browser [File]: declared name, MIME type and size, and its bytes. *)
Record t := mk {
  name : string;
  type : string;
  size : N;
  payload : list Byte.byte
}.
End File.

Module Blob.
Record t := mk {
  type : string;
  bytes : list Byte.byte
}.
Definition size (b : t) : N := N.of_nat (length (bytes b)).
End Blob.

Module ConversionResult.
Record t := mk {
  originalName : string;
  convertedName : string;
  downloadUrl : string;
  size : string;
  blob : Blob.t
}.
End ConversionResult.

(** [status: 'pending' | 'converting' | 'completed' | 'error'] *)
Inductive Status := pending | converting | completed | error.

#[global] Instance Status_eq_dec : EqDecision Status.
Proof. solve_decision. Defined.

Module FileProcessingState.
(** One element of [fileStates].  Elements are JavaScript objects, and
    [Array.prototype.indexOf] compares them by identity: [oid] is the
    identity of the object, two records with equal fields and different
    [oid] are different objects.  [progress] is [None] for [undefined]. *)
Record t := mk {
  oid : nat;
  file : File.t;
  status : Status;
  result : option ConversionResult.t;
  error : option string;
  progress : option nat
}.

(** The object allocated by a spread [{ ...s, ... }] has a new identity. *)
Definition at_oid (o : nat) (s : t) : t :=
  mk o (file s) (status s) (result s) (error s) (progress s).
End FileProcessingState.

Module FS := FileProcessingState.
Abbreviation FPS := FS.t.

(** Outcome of an [await]ed call. *)
Inductive Completion (A : Type) :=
  | Return (a : A)
  | Throw (e : JS.Thrown).
Arguments Return {A} a.
Arguments Throw {A} e.

(** [r] for a fulfilled conversion, [null] for a caught failure. *)
Definition resolved_value {A} (o : Completion A) : option A :=
  match o with
  | Return r => Some r
  | Throw _ => None
  end.

(** The two components share the orchestration code up to a few fields. *)
Inductive Pipeline := Image | Audio.

(** ** Arrays of state objects *)

Definition same_object (x y : FPS) : bool :=
  (FS.oid x =? FS.oid y)%nat.

(** [arr.indexOf(s)]; [None] stands for [-1]. *)
Fixpoint indexOf_from (arr : list FPS) (s : FPS) (i : nat) : option nat :=
  match arr with
  | [] => None
  | x :: rest => if same_object x s then Some i else indexOf_from rest s (S i)
  end.

Definition indexOf (arr : list FPS) (s : FPS) : option nat := indexOf_from arr s 0.

(** [indices.includes(i)] for an array of [indexOf] results. *)
Definition includes (indices : list (option nat)) (i : nat) : bool :=
  bool_decide (Some i ∈ indices).

(** [i === idx] for an [indexOf] result. *)
Definition is_index (idx : option nat) (i : nat) : bool :=
  bool_decide (idx = Some i).

(** [arr.slice(i, j)] for [0 <= i <= j]. *)
Definition slice {A} (arr : list A) (i j : nat) : list A :=
  take (j - i) (drop i arr).

(** [for (let i = 0; i < arr.length; i += W) chunks.push(arr.slice(i, i + W))].
    The loop does not terminate for [W = 0] on a non-empty array; [None] is
    the result of running out of [fuel]. *)
Fixpoint chunk_loop {A} (W : nat) (arr : list A) (fuel i : nat)
  : option (list (list A)) :=
  match fuel with
  | O => None
  | S fuel' =>
      if (i <? length arr)%nat
      then (slice arr i (i + W) ::.) <$> chunk_loop W arr fuel' (i + W)
      else Some []
  end.

Definition make_chunks {A} (W : nat) (arr : list A) : option (list (list A)) :=
  chunk_loop W arr (S (length arr)) 0.

(** [prev.map((s, i) => f i s)], where [f i s = None] stands for the branch
    that returns [s] itself and [Some s'] for a branch that builds a new
    object; the new object of position [i] gets identity [next + i]. *)
Definition map_states (next : nat) (f : nat → FPS → option FPS) (prev : list FPS)
  : list FPS :=
  imap (λ i s, from_option (FS.at_oid (next + i)) s (f i s)) prev.

(** ** The component state *)

Record Component := mkComponent {
  selectedFiles : list File.t;
  fileStates : list FPS;
  conversionResults : list ConversionResult.t;
  isConverting : bool;
  (** allocation counter: every object identity in use is below it *)
  heap_next : nat
}.

Definition initial : Component := mkComponent [] [] [] false 0.

Definition setFileStates (f : nat → FPS → option FPS) (c : Component) : Component :=
  mkComponent (selectedFiles c)
    (map_states (heap_next c) f (fileStates c))
    (conversionResults c) (isConverting c)
    (heap_next c + length (fileStates c)).

Definition setConversionResults (rs : list ConversionResult.t) (c : Component)
  : Component :=
  mkComponent (selectedFiles c) (fileStates c) rs (isConverting c) (heap_next c).

Definition setIsConverting (b : bool) (c : Component) : Component :=
  mkComponent (selectedFiles c) (fileStates c) (conversionResults c) b (heap_next c).

(** *** File selection *)

Definition audio_extensions : list string :=
  ["mp3"; "wav"; "m4a"; "aac"; "ogg"; "opus"; "flac"; "aif"; "aiff"; "wma";
   "webm"; "mp4"].

Definition image_extensions : list string :=
  ["png"; "jpg"; "jpeg"; "webp"; "svg"; "bmp"; "tif"; "tiff"; "ico"; "avif";
   "heic"; "heif"; "gif"; "psd"; "3fr"; "arw"; "cr2"; "cr3"; "crw"; "dcr";
   "dng"; "eps"; "erf"; "mos"; "mrw"; "nef"; "odd"; "odg"; "orf"; "pef";
   "ppm"; "ps"; "pub"; "raf"; "raw"; "rw2"; "x3f"; "xcf"; "xps"].

(** [file.type.startsWith('audio/') || file.name.match(/\.(mp3|...)$/i)] *)
Definition accepted (pl : Pipeline) (f : File.t) : bool :=
  let '(prefix, exts) :=
    match pl with
    | Image => ("image/", image_extensions)
    | Audio => ("audio/", audio_extensions)
    end in
  JS.startsWith (File.type f) prefix
  || existsb (λ e, JS.endsWith (JS.toLowerCase (File.name f)) ("." ++ e)) exts.

Definition new_state (pl : Pipeline) (o : nat) (f : File.t) : FPS :=
  FS.mk o f pending None None
    (match pl with Image => None | Audio => Some 0 end).

Definition onDrop (pl : Pipeline) (acceptedFiles : list File.t) (c : Component)
  : Component :=
  let files := filter (λ f, accepted pl f = true) acceptedFiles in
  mkComponent (selectedFiles c ++ files)
    (fileStates c ++ imap (λ i f, new_state pl (heap_next c + i) f) files)
    (conversionResults c) (isConverting c)
    (heap_next c + length files).

(** [prev.filter((_, i) => i !== index)] *)
Definition remove_at {A} (index : nat) (l : list A) : list A :=
  take index l ++ drop (S index) l.

Definition removeFile (index : nat) (c : Component) : Component :=
  mkComponent (remove_at index (selectedFiles c)) (remove_at index (fileStates c))
    (conversionResults c) (isConverting c) (heap_next c).

Definition clearAll (c : Component) : Component :=
  mkComponent [] [] [] (isConverting c) (heap_next c).

(** ** The batch orchestrator: [convertAll] / [convertImages] *)

(** One element of [promises]: the state object [s] the callback closed
    over, the [idx] it computed with [fileStates.indexOf(s)], and the value
    the promise resolved to once settled ([Some None] is [null]). *)
Record Promise := mkPromise {
  task_state : FPS;
  task_idx : option nat;
  task_settled : option (option ConversionResult.t)
}.

(** The suspended body of [convertAll].  [snapshot] is the [fileStates]
    array the closure captured when the handler was created; the updaters
    receive the current array as [prev]. *)
Inductive Cont :=
  | ForOf (snapshot : list FPS) (chunks : list (list FPS))
          (allResults : list ConversionResult.t)
  | AwaitAll (snapshot : list FPS) (promises : list Promise)
             (chunks : list (list FPS)) (allResults : list ConversionResult.t)
  | Returned.

Section Orchestrator.

(** Which component, the value of [maxConcurrent] read by the run, and
    the conversion of one task: [convert s idx] is the completion of
    [convertSingle(s, idx)] (of [convertSingleImage(s)] for images). *)
Variable pl : Pipeline.
Variable maxConcurrent : nat.
Variable convert : FPS → option nat → Completion ConversionResult.t.

(** [{ ...s, status: 'pending', progress: 0, result: undefined, error: undefined }];
    the image component leaves [progress] out. *)
Definition reset_state (s : FPS) : FPS :=
  FS.mk (FS.oid s) (FS.file s) pending None None
     (match pl with Image => FS.progress s | Audio => Some 0 end).

(** [{ ...s, status: 'converting', progress: 0 }] *)
Definition converting_state (s : FPS) : FPS :=
  FS.mk (FS.oid s) (FS.file s) converting (FS.result s) (FS.error s)
     (match pl with Image => FS.progress s | Audio => Some 0 end).

(** [{ ...ps, status: 'completed', result: res, progress: 100 }] *)
Definition completed_state (res : ConversionResult.t) (s : FPS) : FPS :=
  FS.mk (FS.oid s) (FS.file s) completed (Some res) (FS.error s)
     (match pl with Image => FS.progress s | Audio => Some 100 end).

(** [err instanceof Error ? err.message : 'Conversion failed'] *)
Definition error_message (e : JS.Thrown) : string :=
  match e with
  | JS.ErrorObject m => m
  | JS.NonError => match pl with Image => "Unknown error" | Audio => "Conversion failed" end
  end.

(** [{ ...ps, status: 'error', error: ..., progress: 0 }] *)
Definition error_state (e : JS.Thrown) (s : FPS) : FPS :=
  FS.mk (FS.oid s) (FS.file s) error (FS.result s) (Some (error_message e))
     (match pl with Image => FS.progress s | Audio => Some 0 end).

(** [{ ...s, progress: 100 }], the last update of a successful
    [convertSingle] in the audio component. *)
Definition full_progress (s : FPS) : FPS :=
  FS.mk (FS.oid s) (FS.file s) (FS.status s) (FS.result s) (FS.error s) (Some 100).

Definition when (b : bool) (s : FPS) : option FPS := if b then Some s else None.

(** The synchronous prefix of [convertAll], up to the head of
    [for (const chunk of chunks)].  [None]: the chunking loop diverges. *)
Definition convertAll_enter (c : Component) : option (Component * Cont) :=
  let empty :=
    match pl with
    | Image => (length (selectedFiles c) =? 0)%nat
    | Audio => (length (fileStates c) =? 0)%nat
    end in
  if empty then Some (c, Returned)
  else
    let c := setIsConverting true c in
    let c := setConversionResults [] c in
    let snapshot := fileStates c in
    let c := setFileStates (λ _ s, Some (reset_state s)) c in
    chunks ← make_chunks maxConcurrent snapshot;
    Some (c, ForOf snapshot chunks []).

(** The callback of [chunk.map(async (s) => ...)] up to its [await]. *)
Definition dispatch (snapshot : list FPS) (s : FPS) : Promise :=
  mkPromise s (indexOf snapshot s) None.

(** The callback after its [await]: the state update and the value the
    promise resolves to. *)
Definition settle (p : Promise) (c : Component)
  : Component * option ConversionResult.t :=
  match convert (task_state p) (task_idx p) with
  | Return res =>
      let c := match pl with
               | Image => c
               | Audio => setFileStates
                            (λ i s, when (is_index (task_idx p) i) (full_progress s)) c
               end in
      (setFileStates (λ i s, when (is_index (task_idx p) i) (completed_state res s)) c,
       Some res)
  | Throw e =>
      (setFileStates (λ i s, when (is_index (task_idx p) i) (error_state e s)) c,
       None)
  end.

Definition resolve (p : Promise) (r : option ConversionResult.t) : Promise :=
  mkPromise (task_state p) (task_idx p) (Some r).

(** [Promise.all(promises)]: the settled values in the order of the
    promises, once every promise is settled. *)
Definition promise_all (ps : list Promise)
  : option (list (option ConversionResult.t)) :=
  mapM task_settled ps.

(** [results.filter(r => r !== null)] *)
Definition non_null (rs : list (option ConversionResult.t))
  : list ConversionResult.t :=
  omap id rs.

(** One synchronous segment of the run.  Within a window the promises
    settle in any order.  The steps are those of the handler itself: the
    timer of the audio component, which only rewrites the [progress] of a
    state object whose [status] is [converting], is left out, and so are
    the other handlers of the component (the buttons that remove files or
    start a run are disabled while [isConverting] holds; files dropped
    during a run are appended behind the batch and are not part of it). *)
Inductive step : Component * Cont → Component * Cont → Prop :=
  | step_dispatch c snapshot chunk chunks allResults :
      let indices := indexOf snapshot <$> chunk in
      step (c, ForOf snapshot (chunk :: chunks) allResults)
           (setFileStates (λ i s, when (includes indices i) (converting_state s)) c,
            AwaitAll snapshot (dispatch snapshot <$> chunk) chunks allResults)
  | step_settle c snapshot promises chunks allResults k p :
      promises !! k = Some p →
      task_settled p = None →
      step (c, AwaitAll snapshot promises chunks allResults)
           ((settle p c).1,
            AwaitAll snapshot (<[k := resolve p (settle p c).2]> promises)
                     chunks allResults)
  | step_join c snapshot promises chunks allResults results :
      promise_all promises = Some results →
      step (c, AwaitAll snapshot promises chunks allResults)
           (c, ForOf snapshot chunks (allResults ++ non_null results))
  | step_return c snapshot allResults :
      step (c, ForOf snapshot [] allResults)
           (setIsConverting false (setConversionResults allResults c), Returned).

(** A deterministic schedule (the first unsettled promise settles
    first), for running the model. *)
Definition first_unsettled (ps : list Promise) : option (nat * Promise) :=
  list_find (λ p, task_settled p = None) ps.

Definition next (st : Component * Cont) : option (Component * Cont) :=
  match st with
  | (c, ForOf snapshot (chunk :: chunks) allResults) =>
      let indices := indexOf snapshot <$> chunk in
      Some (setFileStates (λ i s, when (includes indices i) (converting_state s)) c,
            AwaitAll snapshot (dispatch snapshot <$> chunk) chunks allResults)
  | (c, ForOf snapshot [] allResults) =>
      Some (setIsConverting false (setConversionResults allResults c), Returned)
  | (c, AwaitAll snapshot promises chunks allResults) =>
      match first_unsettled promises with
      | Some (k, p) =>
          Some ((settle p c).1,
                AwaitAll snapshot (<[k := resolve p (settle p c).2]> promises)
                         chunks allResults)
      | None =>
          results ← promise_all promises;
          Some (c, ForOf snapshot chunks (allResults ++ non_null results))
      end
  | (_, Returned) => None
  end.

Fixpoint run (fuel : nat) (st : Component * Cont) : Component * Cont :=
  match fuel with
  | O => st
  | S fuel' => match next st with Some st' => run fuel' st' | None => st end
  end.

End Orchestrator.

(** ** The image conversion endpoint: [POST /api/convert] *)

Module Endpoint.

(** The fields of the multipart form, typed as the handler casts them:
    [formData.get('file') as File], [formData.get('format') as string],
    [formData.get('quality') as string]; [None] is [null]. *)
Record FormData := mkFormData {
  file : option File.t;
  format : option string;
  quality : option string
}.

Inductive Body :=
  | Json (error : string)
  | Bytes (data : list Byte.byte).

Record Response := mkResponse {
  status : nat;
  headers : list (string * string);
  body : Body
}.

(** [NextResponse.json({ error }, { status })] *)
Definition json (error : string) (status : nat) : Response :=
  mkResponse status [("content-type", "application/json")] (Json error).

(** [new Response(bytes, { headers })] *)
Definition binary (data : list Byte.byte) (headers : list (string * string))
  : Response :=
  mkResponse 200 headers (Bytes data).

(** [response.headers.get(name)] *)
Definition header (name : string) (r : Response) : option string :=
  (λ h : nat * (string * string), h.2.2)
    <$> list_find (λ h, JS.toLowerCase h.1 = JS.toLowerCase name) (headers r).

(** What the handler asks of the [sharp] library.  Only the output
    format, the quality and the resize vary with the request; the other
    encoder options are constants of the source. *)
Inductive Encoder :=
  | png
  | jpeg (quality : Z)
  | webp (quality : Z)
  | avif (quality : Z)
  | tiff (quality : Z)
  | gif
  | heif (quality : Z).

Inductive Resize :=
  | NoResize
  | Inside (width height : Z)
  | Contain (width height : Z).

Record SharpCall := mkSharpCall {
  input : list Byte.byte;
  resize : Resize;
  encoder : Encoder
}.

Record Metadata := mkMetadata {
  width : option Z;
  height : option Z
}.

Definition quote : string := String "034"%char EmptyString.

(** [parseInt(formData.get('quality') as string) || 80] *)
Definition read_quality (form : FormData) : Z :=
  JS.or_number (JS.parseInt (default "null" (quality form))) 80.

(** [originalName.substring(0, originalName.lastIndexOf('.')) || originalName] *)
Definition nameWithoutExt (originalName : string) : string :=
  JS.or_string (JS.substring originalName 0 (JS.lastIndexOf "." originalName))
               originalName.

Definition max_upload : N := 50 * 1024 * 1024.
Definition maxDimension : Z := 8192.

Section Handler.

(** The library: [sharp(buffer).<encoder>().toBuffer()] and
    [sharpInstance.metadata()]. *)
Variable toBuffer : SharpCall → Completion (list Byte.byte).
Variable metadata : list Byte.byte → Completion Metadata.

(** *** [app/api/convert/route.ts] *)

(** The [switch (targetFormat.toLowerCase())]: the encoder and the
    value of [actualFormat] after it, [None] for the [default] case. *)
Definition select_encoder (targetFormat : string) (quality : Z)
  : option (Resize * Encoder * string) :=
  let lower := JS.toLowerCase targetFormat in
  if String.eqb lower "png" then Some (NoResize, png, targetFormat)
  else if String.eqb lower "jpeg" || String.eqb lower "jpg"
    then Some (NoResize, jpeg quality, targetFormat)
  else if String.eqb lower "webp" then Some (NoResize, webp quality, targetFormat)
  else if String.eqb lower "avif" then Some (NoResize, avif quality, targetFormat)
  else if String.eqb lower "tiff" || String.eqb lower "tif"
    then Some (NoResize, tiff quality, targetFormat)
  else if String.eqb lower "bmp" then Some (NoResize, png, "png")
  else if String.eqb lower "gif" then Some (NoResize, gif, targetFormat)
  else if String.eqb lower "heic" || String.eqb lower "heif"
    then Some (NoResize, heif quality, targetFormat)
  else if String.eqb lower "psd" then Some (NoResize, png, "png")
  else if String.eqb lower "ico" then Some (Contain 32 32, png, "png")
  else None.


(** *** The optimized route *)

(** [Math.max(1, Math.min(100, quality))] *)
Definition clamp_quality (quality : Z) : Z := Z.max 1 (Z.min 100 quality).

(** The resize applied to very large images. *)
Definition resizeOptions (m : Metadata) : Resize :=
  match width m, height m with
  | Some w, Some h =>
      if negb (w =? 0)%Z && negb (h =? 0)%Z
         && ((maxDimension <? w)%Z || (maxDimension <? h)%Z)
      then Inside (Z.min w maxDimension) (Z.min h maxDimension)
      else NoResize
  | _, _ => NoResize
  end.

Definition select_encoder_optimized (targetFormat : string) (quality : Z)
           (rs : Resize) : option (Resize * Encoder * string) :=
  let lower := JS.toLowerCase targetFormat in
  if String.eqb lower "png" then Some (rs, png, targetFormat)
  else if String.eqb lower "jpeg" || String.eqb lower "jpg"
    then Some (rs, jpeg (clamp_quality quality), targetFormat)
  else if String.eqb lower "webp"
    then Some (rs, webp (clamp_quality quality), targetFormat)
  else if String.eqb lower "avif"
    then Some (rs, avif (clamp_quality quality), targetFormat)
  else if String.eqb lower "tiff" || String.eqb lower "tif"
    then Some (rs, tiff (clamp_quality quality), targetFormat)
  else if String.eqb lower "bmp" then Some (rs, png, "png")
  else if String.eqb lower "gif" then Some (rs, png, "png")
  else if String.eqb lower "heic" || String.eqb lower "heif"
    then Some (rs, heif (clamp_quality quality), targetFormat)
  else if String.eqb lower "psd" then Some (rs, png, "png")
  else if String.eqb lower "ico" then Some (Contain 256 256, png, "png")
  else None.

(** The [catch] block. *)
Definition on_error (e : JS.Thrown) : Response :=
  match e with
  | JS.ErrorObject message =>
      if JS.includes message "Input file contains unsupported image format"
      then json "Unsupported image format. Please try a different file." 400
      else if JS.includes message "Input image exceeds pixel limit"
      then json "Image is too large. Please use a smaller image." 413
      else json "Failed to convert image. Please try again." 500
  | JS.NonError => json "Failed to convert image. Please try again." 500
  end.

Definition POST (request : Completion FormData) : Response :=
  match request with
  | Throw e => on_error e
  | Return formData =>
      let quality := read_quality formData in
      match file formData with
      | None => json "No file provided" 400
      | Some file =>
          match format formData with
          | None | Some EmptyString => json "No target format specified" 400
          | Some targetFormat =>
              if (max_upload <? File.size file)%N
              then json "File too large. Maximum size is 50MB." 413
              else
                let buffer := File.payload file in
                match metadata buffer with
                | Throw e => on_error e
                | Return m =>
                    match select_encoder_optimized targetFormat quality
                            (resizeOptions m) with
                    | None => json "Unsupported target format" 400
                    | Some (rs, enc, actualFormat) =>
                        match toBuffer (mkSharpCall buffer rs enc) with
                        | Throw e => on_error e
                        | Return convertedBuffer =>
                            let newFilename :=
                              nameWithoutExt (File.name file) ++ "." ++ actualFormat in
                            binary convertedBuffer
                              [("Content-Type",
                                "image/" ++ (if String.eqb actualFormat "jpg"
                                                || String.eqb actualFormat "jpeg"
                                             then "jpeg" else actualFormat));
                               ("Content-Disposition",
                                "attachment; filename=" ++ quote ++ newFilename ++ quote);
                               ("Content-Length",
                                JS.toString (N.of_nat (length convertedBuffer)));
                               ("Cache-Control", "no-cache, no-store, must-revalidate");
                               ("Pragma", "no-cache");
                               ("Expires", "0")]
                        end
                    end
                end
          end
      end
  end.

End Handler.

End Endpoint.

(** ** The image adapter: [convertSingleImage] *)

Module ImageConverter.

Import Endpoint.

(** [response.ok] *)
Definition ok (r : Response) : bool :=
  (200 <=? status r)%nat && (status r <=? 299)%nat.

(** [JSON.stringify({ error })] for a message without characters to
    escape, and the bytes of a response body. *)
Definition json_text (error : string) : string :=
  "{" ++ quote ++ "error" ++ quote ++ ":" ++ quote ++ error ++ quote ++ "}".

Definition body_bytes (b : Body) : list Byte.byte :=
  match b with
  | Json message => list_byte_of_string (json_text message)
  | Bytes data => data
  end.

(** [await response.blob()] *)
Definition blob (r : Response) : Blob.t :=
  Blob.mk (JS.toLowerCase (default "" (header "Content-Type" r)))
          (body_bytes (body r)).

Section Adapter.

(** The options the closure reads, the transport, and the string
    [URL.createObjectURL] returns for this call. *)
Variable targetFormat : string.
Variable quality : N.
Variable fetch : FormData → Completion Response.
Variable downloadUrl : string.

Definition convertSingleImage (fileState : FPS)
  : Completion ConversionResult.t :=
  let file := FS.file fileState in
  let formData :=
    mkFormData (Some file) (Some targetFormat) (Some (JS.toString quality)) in
  match fetch formData with
  | Throw e => Throw e
  | Return response =>
      if negb (ok response)
      then Throw (JS.ErrorObject ("Failed to convert " ++ File.name file))
      else
        let blob := blob response in
        Return (ConversionResult.mk
                  (File.name file)
                  (JS.split_head "." (File.name file) ++ "." ++ targetFormat)
                  downloadUrl
                  (JS.toFixed1_kb (Blob.size blob) ++ " KB")
                  blob)
  end.

End Adapter.

End ImageConverter.

(** ** The audio adapter: [buildArgs], [convertSingle], [ensureFFmpeg] *)

Module AudioConverter.

Section Adapter.

Variable targetFormat : string.
Variable bitrateKbps sampleRate channels : N.

Definition buildArgs (inputName outputName : string) : list string :=
  let common := ["-ar"; JS.toString sampleRate; "-ac"; JS.toString channels] in
  let bitrate := JS.toString bitrateKbps ++ "k" in
  if String.eqb targetFormat "mp3"
    then ["-i"; inputName] ++ common ++ ["-c:a"; "libmp3lame"; "-b:a"; bitrate; outputName]
  else if String.eqb targetFormat "wav"
    then ["-i"; inputName] ++ common ++ ["-c:a"; "pcm_s16le"; outputName]
  else if String.eqb targetFormat "ogg"
    then ["-i"; inputName] ++ common ++ ["-c:a"; "libopus"; "-b:a"; bitrate; outputName]
  else if String.eqb targetFormat "flac"
    then ["-i"; inputName] ++ common ++ ["-c:a"; "flac"; "-compression_level"; "5"; outputName]
  else if String.eqb targetFormat "m4a"
    then ["-i"; inputName] ++ common ++ ["-c:a"; "aac"; "-b:a"; bitrate; outputName]
  else ["-i"; inputName] ++ common ++ ["-c:a"; "libmp3lame"; "-b:a"; bitrate; outputName].

(** The engine: the completion of [await ensureFFmpeg()], and of the
    sequence [writeFile], [exec(args)], [readFile] on the loaded engine. *)
Variable ensured : Completion unit.
Variable ffmpeg : list Byte.byte → list string → Completion (list Byte.byte).
Variable downloadUrl : string.

(** [`${globalIndex}`] for an [indexOf] result *)
Definition index_text (globalIndex : option nat) : string :=
  match globalIndex with
  | Some i => JS.toString (N.of_nat i)
  | None => "-1"
  end.

Definition convertSingle (state : FPS) (globalIndex : option nat)
  : Completion ConversionResult.t :=
  match ensured with
  | Throw e => Throw e
  | Return _ =>
      let file := FS.file state in
      let inputName := "input_" ++ index_text globalIndex in
      let outputName := "output_" ++ index_text globalIndex ++ "." ++ targetFormat in
      match ffmpeg (File.payload file) (buildArgs inputName outputName) with
      | Throw e => Throw e
      | Return data =>
          let blob :=
            Blob.mk ("audio/" ++ (if String.eqb targetFormat "m4a"
                                  then "mp4" else targetFormat)) data in
          Return (ConversionResult.mk
                    (File.name file)
                    (JS.strip_extension (File.name file) ++ "." ++ targetFormat)
                    downloadUrl
                    (JS.toFixed1_kb (Blob.size blob) ++ " KB")
                    blob)
      end
  end.

End Adapter.

(** *** The codec engine

    [ffmpegRef] holds the engine once loaded.  [constructed] counts the
    [new FFmpeg()] evaluated so far; the instance built by the [n]-th one
    is named [n]. *)
Record Session := mkSession {
  ffmpegRef : option nat;
  constructed : nat;
  ffmpegReady : bool
}.

Definition fresh : Session := mkSession None 0 false.

(** [ensureFFmpeg] up to its [await ffmpeg.load()]: [None] when it
    returned at the guard, [Some inst] when the load of the instance it
    built is awaited. *)
Definition ensureFFmpeg_enter (s : Session) : Session * option nat :=
  match ffmpegRef s with
  | Some _ => (s, None)
  | None =>
      (mkSession None (S (constructed s)) (ffmpegReady s), Some (constructed s))
  end.

(** [ensureFFmpeg] after the load: [ffmpegRef.current = ffmpeg; setFfmpegReady(true)]. *)
Definition ensureFFmpeg_resume (inst : nat) (s : Session) : Session :=
  mkSession (Some inst) (constructed s) true.

(** [chunk.map(async (s) => ...)] for a chunk of [n] tasks: each callback
    runs synchronously through [convertSingle] into [ensureFFmpeg] up to
    the first [await] before the next callback starts, and no
    continuation runs before [map] returns. *)
Fixpoint dispatch_window (n : nat) (s : Session) : Session * list (option nat) :=
  match n with
  | O => (s, [])
  | S n' =>
      let '(s1, w) := ensureFFmpeg_enter s in
      let '(s2, ws) := dispatch_window n' s1 in
      (s2, w :: ws)
  end.

(** The awaited loads complete, in the order given. *)
Definition loads_complete (order : list nat) (s : Session) : Session :=
  foldl (λ s inst, ensureFFmpeg_resume inst s) s order.

End AudioConverter.

(** ** The archive: [downloadAll]

    A [JSZip] object keeps its entries in an object keyed by entry name;
    [zip.file(name, data)] assigns to that key.  The entry names are file
    names without path separators. *)

Module Archive.

Definition file (name : string) (data : Blob.t) (zip : gmap string Blob.t)
  : gmap string Blob.t :=
  <[name := data]> zip.

(** [for (const r of conversionResults) zip.file(r.convertedName, r.blob)] *)
Definition build (conversionResults : list ConversionResult.t)
  : gmap string Blob.t :=
  foldl (λ zip r, file (ConversionResult.convertedName r) (ConversionResult.blob r) zip)
        ∅ conversionResults.

Definition archive_name (pl : Pipeline) : string :=
  match pl with
  | Image => "converted_images.zip"
  | Audio => "converted_audio.zip"
  end.

(** The download the handler triggers, [None] when it returns at its
    guard. *)
Definition downloadAll (pl : Pipeline) (c : Component)
  : option (string * gmap string Blob.t) :=
  if (length (conversionResults c) =? 0)%nat then None
  else Some (archive_name pl, build (conversionResults c)).

End Archive.

(** ** The two instances of the orchestrator

    The environment of a run gives, for the call made on behalf of each
    state object, what the transport or the engine answers and the object
    URL handed out. *)

Definition image_convert (targetFormat : string) (quality : N)
    (fetch : FPS → Endpoint.FormData → Completion Endpoint.Response)
    (downloadUrl : FPS → string)
  : FPS → option nat → Completion ConversionResult.t :=
  λ fileState _,
    ImageConverter.convertSingleImage targetFormat quality
      (fetch fileState) (downloadUrl fileState) fileState.

Definition audio_convert (targetFormat : string)
    (bitrateKbps sampleRate channels : N)
    (ensured : FPS → Completion unit)
    (ffmpeg : FPS → list Byte.byte → list string → Completion (list Byte.byte))
    (downloadUrl : FPS → string)
  : FPS → option nat → Completion ConversionResult.t :=
  λ state globalIndex,
    AudioConverter.convertSingle targetFormat bitrateKbps sampleRate channels
      (ensured state) (ffmpeg state) (downloadUrl state) state globalIndex.

(** ** A batch of three images

    Three files are dropped on the image component and converted to PNG
    through the optimized endpoint, two at a time; the library rejects the
    bytes of the second file. *)

Module Scenario.

Definition photo : File.t :=
  File.mk "photo.jpg" "image/jpeg" 2 [Byte.x01; Byte.x02].
Definition broken : File.t :=
  File.mk "broken.png" "image/png" 1 [Byte.xff].
Definition drawing : File.t :=
  File.mk "drawing.bmp" "image/bmp" 3 [Byte.x03; Byte.x04; Byte.x05].

Definition toBuffer (call : Endpoint.SharpCall) : Completion (list Byte.byte) :=
  match Endpoint.input call with
  | [Byte.xff] => Throw (JS.ErrorObject "Input buffer contains unsupported image format")
  | data => Return data
  end.

Definition metadata (_ : list Byte.byte) : Completion Endpoint.Metadata :=
  Return (Endpoint.mkMetadata (Some 640%Z) (Some 480%Z)).




Definition fetch (formData : Endpoint.FormData) : Completion Endpoint.Response :=
  Return (Endpoint.POST toBuffer metadata (Return formData)).

Definition convert : FPS → option nat → Completion ConversionResult.t :=
  image_convert "png" 100 (λ _, fetch)
                (λ s, "blob:" ++ File.name (FS.file s)).

Definition batch : Component := onDrop Image [photo; broken; drawing] initial.

(** A second picture with the stem of the first, and the results of
    converting both to PNG. *)
Definition animation : File.t :=
  File.mk "photo.gif" "image/gif" 2 [Byte.x06; Byte.x07].

Definition collision : list ConversionResult.t :=
  omap resolved_value
       [convert (new_state Image 0 photo) (Some 0);
        convert (new_state Image 1 animation) (Some 1)].

(** The run after the synchronous prefix of the handler, in the middle of
    the first window, and at its end, under the first-unsettled-first
    schedule. *)
Definition entered : Component * Cont :=
  default (batch, Returned) (convertAll_enter Image 2 batch).
Definition midway : Component * Cont := run Image convert 2 entered.
Definition final : Component := (run Image convert 8 entered).1.

(** Two recordings converted to MP3 by the audio component, both in the
    first window; the engine loads and converts every input. *)
Definition take1 : File.t := File.mk "take.one.wav" "audio/wav" 4 [Byte.x10; Byte.x11].
Definition take2 : File.t := File.mk "take2" "audio/ogg" 4 [Byte.x12].

Definition audio_batch : Component := onDrop Audio [take1; take2] initial.

Definition audio : FPS → option nat → Completion ConversionResult.t :=
  audio_convert "mp3" 192 48000 2
                (λ _, Return tt) (λ _ input _, Return input)
                (λ s, "blob:" ++ File.name (FS.file s)).

Definition audio_final : Component :=
  (run Audio audio 8 (default (audio_batch, Returned)
                              (convertAll_enter Audio 2 audio_batch))).1.

End Scenario.

(** ** The sequential image component: [components/ImageConverter.tsx]

    The version of the image component without [fileStates]: the files are
    converted one after the other, and the first failure ends the loop.
    The handler is taken from its entry to its return; the transport is
    assumed to answer every request it is sent. *)

Module SequentialImageConverter.

Record State := mkState {
  selectedFiles : list File.t;
  conversionResults : list ConversionResult.t;
  isConverting : bool
}.

Definition onDrop (acceptedFiles : list File.t) (st : State) : State :=
  mkState (selectedFiles st ++ filter (λ f, accepted Image f = true) acceptedFiles)%list
          (conversionResults st) (isConverting st).

Definition removeFile (index : nat) (st : State) : State :=
  mkState (remove_at index (selectedFiles st)) (conversionResults st)
          (isConverting st).

Definition clearAllFiles (st : State) : State :=
  mkState [] [] (isConverting st).

(** What a call of [convertImages] leaves: the state, whether the [catch]
    block raised its alert, and the bodies sent to [fetch], in order. *)
Record Outcome := mkOutcome {
  state : State;
  alerted : bool;
  requests : list Endpoint.FormData
}.

Section Handler.

(** The options the closure reads; the transport's answer to the request
    made for the file at a position, and the object URL handed out for
    it. *)
Variable targetFormat : string.
Variable quality : N.
Variable fetch : nat → Endpoint.FormData → Completion Endpoint.Response.
Variable downloadUrl : nat → string.

Definition formData_of (file : File.t) : Endpoint.FormData :=
  Endpoint.mkFormData (Some file) (Some targetFormat) (Some (JS.toString quality)).

(** The body of [for (const file of selectedFiles)] after the response
    has arrived. *)
Definition result_of (i : nat) (file : File.t) (response : Endpoint.Response)
  : ConversionResult.t :=
  let blob := ImageConverter.blob response in
  ConversionResult.mk (File.name file)
    (JS.split_head "." (File.name file) ++ "." ++ targetFormat)
    (downloadUrl i)
    (JS.toFixed1_kb (Blob.size blob) ++ " KB")
    blob.

(** The loop from position [i] on, with the [results] pushed and the
    requests [sent] so far. *)
Fixpoint convert_loop (i : nat) (files : list File.t)
    (results : list ConversionResult.t) (sent : list Endpoint.FormData)
  : Completion (list ConversionResult.t) * list Endpoint.FormData :=
  match files with
  | [] => (Return results, sent)
  | file :: rest =>
      let sent := (sent ++ [formData_of file])%list in
      match fetch i (formData_of file) with
      | Throw e => (Throw e, sent)
      | Return response =>
          if negb (ImageConverter.ok response)
          then (Throw (JS.ErrorObject ("Failed to convert " ++ File.name file)), sent)
          else convert_loop (S i) rest
                 (results ++ [result_of i file response])%list sent
      end
  end.

Definition convertImages (st : State) : Outcome :=
  if (length (selectedFiles st) =? 0)%nat then mkOutcome st false []
  else
    match convert_loop 0 (selectedFiles st) [] [] with
    | (Return results, sent) =>
        mkOutcome (mkState (selectedFiles st) results false) false sent
    | (Throw _, sent) =>
        mkOutcome (mkState (selectedFiles st) (conversionResults st) false) true sent
    end.

End Handler.

End SequentialImageConverter.

(** ** The page: theme preference

    [localStorage] is the map from keys to the strings stored under
    them. *)

Module Home.

Record State := mkState {
  isDarkMode : bool;
  localStorage : gmap string string
}.

(** [useState(false)] followed by the effect that runs on mount. *)
Definition mount (storage : gmap string string) : State :=
  let st := mkState false storage in
  let savedTheme := storage !! "debucon-theme" in
  if bool_decide (savedTheme = Some "dark") then mkState true storage else st.

Definition toggleTheme (st : State) : State :=
  let newMode := negb (isDarkMode st) in
  mkState newMode
    (<["debucon-theme" := if newMode then "dark" else "light"]> (localStorage st)).

End Home.

(** ** The formats the image component offers

    The [value] fields of [SUPPORTED_FORMATS], in the order of the
    table. *)

Definition SUPPORTED_FORMATS : list string :=
  ["png"; "jpeg"; "webp"; "heic"; "heif"; "gif"; "psd"; "tiff"; "tif"; "bmp";
   "ico"; "avif"].

(** * Specification vocabulary *)

Local Open Scope nat_scope.

(** ** Well-formed component states

    The objects of [fileStates] are pairwise distinct, and [selectedFiles]
    lists their files. *)

Record wf (c : Component) : Prop := mk_wf {
  wf_distinct : NoDup (FS.oid <$> fileStates c);
  wf_allocated : Forall (λ s, FS.oid s < heap_next c) (fileStates c);
  wf_files : FS.file <$> fileStates c = selectedFiles c
}.

(** The states the component goes through: files are dropped and removed,
    the selection is cleared, and batches are run to their end with a
    window the slider allows. *)
Inductive reachable (pl : Pipeline) : Component → Prop :=
  | reachable_initial : reachable pl initial
  | reachable_onDrop c acceptedFiles :
      reachable pl c → reachable pl (onDrop pl acceptedFiles c)
  | reachable_removeFile c index :
      reachable pl c → reachable pl (removeFile index c)
  | reachable_clearAll c :
      reachable pl c → reachable pl (clearAll c)
  | reachable_run c W convert st0 cf :
      reachable pl c → 1 ≤ W →
      convertAll_enter pl W c = Some st0 →
      rtc (step pl convert) st0 (cf, Returned) →
      reachable pl cf.

(** ** The run invariant *)

Definition count_status (st : Status) (l : list FPS) : nat :=
  length (filter (λ s, FS.status s = st) l).

Definition terminal (s : FPS) : Prop :=
  FS.status s = completed ∨ FS.status s = error.

Section RunInvariant.

Variable pl : Pipeline.
Variable W : nat.
Variable convert : FPS → option nat → Completion ConversionResult.t.

(** The snapshot of the run under consideration. *)
Variable snap : list FPS.

(** The completion of each task's adapter call, in submission order. *)
Definition outcomes : list (Completion ConversionResult.t) :=
  imap (λ i s, convert s (Some i)) snap.

(** What the state object of a task records once its call completed. *)
Definition settled_as (o : Completion ConversionResult.t) (s : FPS) : Prop :=
  match o with
  | Return r =>
      FS.status s = completed ∧ FS.result s = Some r ∧ FS.error s = None
  | Throw e =>
      FS.status s = error ∧ FS.result s = None
      ∧ FS.error s = Some (error_message pl e)
  end.

Definition untouched (st : Status) (s : FPS) : Prop :=
  FS.status s = st ∧ FS.result s = None ∧ FS.error s = None.

(** The state object at position [i] when the tasks before position [d]
    are done and [ps] are the promises of the window that starts at [d]. *)
Definition expected (d : nat) (ps : list Promise) (i : nat) (s : FPS) : Prop :=
  if decide (i < d) then ∃ o, outcomes !! i = Some o ∧ settled_as o s
  else match ps !! (i - d) with
       | Some p =>
           match task_settled p with
           | None => untouched converting s
           | Some _ => ∃ o, outcomes !! i = Some o ∧ settled_as o s
           end
       | None => untouched pending s
       end.

Definition promises_ok (d : nat) (ps : list Promise) : Prop :=
  length ps = min W (length snap - d)
  ∧ ∀ j p, ps !! j = Some p →
      snap !! (d + j) = Some (task_state p)
      ∧ task_idx p = Some (d + j)
      ∧ ∀ r, task_settled p = Some r →
          ∃ o, outcomes !! (d + j) = Some o ∧ r = resolved_value o.

Definition windows_from (d : nat) (chunks : list (list FPS)) : Prop :=
  ∃ fuel, chunk_loop W snap fuel d = Some chunks.

Definition results_upto (d : nat) : list ConversionResult.t :=
  omap resolved_value (take d outcomes).

Definition states_ok (c : Component) (d : nat) (ps : list Promise) : Prop :=
  wf c
  ∧ length (fileStates c) = length snap
  ∧ ∀ i s, fileStates c !! i = Some s → expected d ps i s.

Definition inv (st : Component * Cont) : Prop :=
  match st with
  | (c, ForOf snapshot chunks allResults) =>
      snapshot = snap
      ∧ ∃ k, states_ok c (k * W) []
             ∧ windows_from (k * W) chunks
             ∧ allResults = results_upto (k * W)
  | (c, AwaitAll snapshot ps chunks allResults) =>
      snapshot = snap
      ∧ ∃ k, states_ok c (k * W) ps
             ∧ promises_ok (k * W) ps
             ∧ windows_from (S k * W) chunks
             ∧ allResults = results_upto (k * W)
  | (c, Returned) =>
      states_ok c (length snap) []
      ∧ conversionResults c = results_upto (length snap)
      ∧ isConverting c = false
  end.

(** The size of what is left to do: every step decreases it. *)
Definition unsettled (ps : list Promise) : nat :=
  length (filter (λ p, task_settled p = None) ps).

Definition backlog (chunks : list (list FPS)) : nat :=
  sum_list ((λ ch, 2 + length ch) <$> chunks).

Definition remaining (st : Component * Cont) : nat :=
  match st.2 with
  | ForOf _ chunks _ => S (backlog chunks)
  | AwaitAll _ ps chunks _ => 2 + unsettled ps + backlog chunks
  | Returned => 0
  end.

End RunInvariant.

(** The results of the [completed] tasks, in the order of the tasks. *)
Definition completed_results (l : list FPS) : list ConversionResult.t :=
  omap (λ s, if decide (FS.status s = completed) then FS.result s else None) l.

(** ** The endpoint *)

(** The quality handed to the encoder lies in [1, 100]. *)
Definition quality_in_range (call : Endpoint.SharpCall) : Prop :=
  match Endpoint.encoder call with
  | Endpoint.jpeg q | Endpoint.webp q | Endpoint.avif q | Endpoint.tiff q
  | Endpoint.heif q => (1 ≤ q ≤ 100)%Z
  | Endpoint.png | Endpoint.gif => True
  end.



(** The [Content-Disposition] of a successful response for a file named
    [name] converted to [actualFormat]. *)
Definition attachment (name actualFormat : string) : string :=
  "attachment; filename=" ++ Endpoint.quote
  ++ (Endpoint.nameWithoutExt name ++ "." ++ actualFormat) ++ Endpoint.quote.


(** A JSON [{error}] body with the given status. *)
Definition json_error (r : Endpoint.Response) (status : nat) : Prop :=
  Endpoint.status r = status ∧ ∃ message, Endpoint.body r = Endpoint.Json message.

(** The names the [switch] of the handler has a case for. *)
Definition supported_formats : list string :=
  ["png"; "jpeg"; "jpg"; "webp"; "avif"; "tiff"; "tif"; "bmp"; "gif"; "heic";
 "heif"; "psd"; "ico"].

Definition supported (targetFormat : string) : bool :=
  bool_decide (JS.toLowerCase targetFormat ∈ supported_formats).




(** ** The life of a task *)

(** The changes of status a run makes to a task. *)
Definition advances (a b : Status) : Prop :=
  a = b
  ∨ (a = pending ∧ b = converting)
  ∨ (a = converting ∧ (b = completed ∨ b = error)).

(** A state object carries a result exactly when it is [completed] and an
    error message exactly when it is [error]. *)
Definition consistent (s : FPS) : Prop :=
  (is_Some (FS.result s) ↔ FS.status s = completed)
  ∧ (is_Some (FS.error s) ↔ FS.status s = error).

(** The status of a task only moves forward, from [pending] through
    [converting] to [completed] or [error], and a settled task keeps what
    it recorded. *)
Definition moves_forward (s s' : FPS) : Prop :=
  match FS.status s with
  | pending => True
  | converting => FS.status s' ≠ pending
  | completed | error =>
      FS.status s' = FS.status s ∧ FS.result s' = FS.result s
      ∧ FS.error s' = FS.error s
  end.

(** ** The sequential component *)

(** The completion of one turn of the loop of the sequential
    [convertImages], for the file at position [i]. *)
Definition attempt (targetFormat : string) (quality : N)
    (fetch : nat → Endpoint.FormData → Completion Endpoint.Response)
    (downloadUrl : nat → string) (i : nat) (file : File.t)
  : Completion ConversionResult.t :=
  match fetch i (SequentialImageConverter.formData_of targetFormat quality file) with
  | Throw e => Throw e
  | Return response =>
      if ImageConverter.ok response
      then Return (SequentialImageConverter.result_of targetFormat downloadUrl
                     i file response)
      else Throw (JS.ErrorObject ("Failed to convert " ++ File.name file))
  end.

Definition fulfilled {A} (o : Completion A) : Prop := is_Some (resolved_value o).

(** ** Names *)

(** The character [c] occurs in [s]. *)
Fixpoint occurs (c : ascii) (s : string) : bool :=
  match s with
  | EmptyString => false
  | String d r => Ascii.eqb d c || occurs c r
  end.

(** The encoder and the resize of a case of the [switch], without the
    format it reports. *)
Definition encoding (x : Endpoint.Resize * Endpoint.Encoder * string)
  : Endpoint.Resize * Endpoint.Encoder :=
  (x.1.1, x.1.2).


(** ** One image conversion, from the component to the library *)



(** ** The engine's file system *)

(** The names [convertSingle] gives the input and the output of a task
    in the virtual file system of the engine. *)
Definition inputName (globalIndex : option nat) : string :=
  "input_" ++ AudioConverter.index_text globalIndex.

Definition outputName (targetFormat : string) (globalIndex : option nat) : string :=
  "output_" ++ AudioConverter.index_text globalIndex ++ "." ++ targetFormat.


(** * Properties *)

(** ** The functions on concrete inputs *)

Example parseInt_examples :
  JS.parseInt "  -12px" = Some (-12)%Z
  ∧ JS.parseInt "0x1F" = Some 31%Z
  ∧ JS.parseInt "080" = Some 80%Z
  ∧ JS.parseInt "null" = None
  ∧ JS.parseInt "high" = None
  ∧ JS.parseInt "" = None.
Proof. by repeat split. Qed.

Example read_quality_examples :
  Endpoint.read_quality (Endpoint.mkFormData None None None) = 80%Z
  ∧ Endpoint.read_quality (Endpoint.mkFormData None None (Some "0")) = 80%Z
  ∧ Endpoint.read_quality (Endpoint.mkFormData None None (Some "-5")) = (-5)%Z
  ∧ Endpoint.read_quality (Endpoint.mkFormData None None (Some "500")) = 500%Z.
Proof. by repeat split. Qed.

(** The original route hands the quality on as read, the optimized route
    clamps it; both keep the spelling of the requested format in
    [actualFormat]. *)
Example select_encoder_examples :
  Endpoint.select_encoder "JPG" 500
  = Some (Endpoint.NoResize, Endpoint.jpeg 500, "JPG")
  ∧ Endpoint.select_encoder_optimized "JPG" 500 Endpoint.NoResize
    = Some (Endpoint.NoResize, Endpoint.jpeg 100, "JPG")
  ∧ Endpoint.select_encoder_optimized "webp" (-5) Endpoint.NoResize
    = Some (Endpoint.NoResize, Endpoint.webp 1, "webp")
  ∧ Endpoint.select_encoder "gif" 80
    = Some (Endpoint.NoResize, Endpoint.gif, "gif")
  ∧ Endpoint.select_encoder_optimized "gif" 80 Endpoint.NoResize
    = Some (Endpoint.NoResize, Endpoint.png, "png")
  ∧ Endpoint.select_encoder "svg" 80 = None.
Proof. by repeat split. Qed.

Example resizeOptions_examples :
  Endpoint.resizeOptions (Endpoint.mkMetadata (Some 640%Z) (Some 480%Z))
  = Endpoint.NoResize
  ∧ Endpoint.resizeOptions (Endpoint.mkMetadata (Some 10000%Z) (Some 480%Z))
    = Endpoint.Inside 8192 480
  ∧ Endpoint.resizeOptions (Endpoint.mkMetadata None (Some 48000%Z))
    = Endpoint.NoResize.
Proof. by repeat split. Qed.

Example size_examples :
  JS.toFixed1_kb 1536 = "1.5" ∧ JS.toFixed1_kb 52 = "0.1" ∧ JS.toFixed1_kb 51 = "0.0".
Proof. by repeat split. Qed.

Example buildArgs_example :
  AudioConverter.buildArgs "ogg" 128 44100 1 "input_0" "output_0.ogg"
  = ["-i"; "input_0"; "-ar"; "44100"; "-ac"; "1"; "-c:a"; "libopus";
     "-b:a"; "128k"; "output_0.ogg"].
Proof. reflexivity. Qed.

Example make_chunks_example :
  make_chunks 2 [1; 2; 3; 4; 5] = Some [[1; 2]; [3; 4]; [5]]
  ∧ make_chunks 0 [1] = None
  ∧ make_chunks 0 ([] : list nat) = Some [].
Proof. by repeat split. Qed.

(** The audio component on two recordings: both end [completed] with
    [progress] 100, named after the text before the last dot. *)
Example audio_run_example :
  (λ s, (FS.status s, FS.progress s)) <$> fileStates Scenario.audio_final
  = [(completed, Some 100); (completed, Some 100)]
  ∧ ConversionResult.convertedName <$> conversionResults Scenario.audio_final
    = ["take.one.mp3"; "take2.mp3"]
  ∧ isConverting Scenario.audio_final = false.
Proof. by repeat split. Qed.

(** ** Arrays: chunking, [indexOf], updaters *)

Lemma slice_window {A} (arr : list A) i W :
  slice arr i (i + W) = take W (drop i arr).
Proof. unfold slice. f_equal. lia. Qed.

(** With a positive window the chunking loop terminates, and the chunks are
    consecutive non-empty slices of at most [W] elements. *)
Lemma chunk_loop_spec {A} (W : nat) (arr : list A) fuel i :
  1 ≤ W → length arr - i < fuel →
  ∃ chunks, chunk_loop W arr fuel i = Some chunks
            ∧ concat chunks = drop i arr
            ∧ Forall (λ ch, 1 ≤ length ch ≤ W) chunks.
Proof.
  intros HW. revert i. induction fuel as [|fuel IH]; intros i Hfuel; [lia|].
  simpl. destruct (Nat.ltb_spec i (length arr)) as [Hlt|Hge].
  - destruct (IH (i + W)) as (chunks & -> & Hcat & Hall); [lia|].
    exists (slice arr i (i + W) :: chunks). split; [done|]. split.
    + simpl. rewrite Hcat, slice_window.
      rewrite <- (take_drop W (drop i arr)) at 2. by rewrite drop_drop.
    + constructor; [|done]. rewrite slice_window, length_take, length_drop. lia.
  - exists []. split; [done|]. split; [|constructor].
    simpl. by rewrite drop_ge by lia.
Qed.

Lemma make_chunks_spec {A} (W : nat) (arr : list A) :
  1 ≤ W →
  ∃ chunks, make_chunks W arr = Some chunks
            ∧ concat chunks = arr
            ∧ Forall (λ ch, 1 ≤ length ch ≤ W) chunks.
Proof.
  intros HW. destruct (chunk_loop_spec W arr (S (length arr)) 0 HW) as (chunks & ? & ? & ?);
    [lia|]. exists chunks. by rewrite drop_0 in *.
Qed.

(** The loop never ends with a zero window and something to convert. *)
Lemma chunk_loop_zero {A} (arr : list A) fuel i :
  i < length arr → chunk_loop 0 arr fuel i = None.
Proof.
  intros Hi. induction fuel as [|fuel IH]; [done|]. simpl.
  destruct (Nat.ltb_spec i (length arr)); [|lia].
  replace (i + 0) with i by lia. by rewrite IH.
Qed.

Lemma indexOf_from_lookup arr s i k :
  NoDup (FS.oid <$> arr) → arr !! i = Some s →
  indexOf_from arr s k = Some (k + i).
Proof.
  revert i k. induction arr as [|x arr IH]; intros i k Hnd Hi; [done|].
  rewrite fmap_cons in Hnd. apply NoDup_cons in Hnd as [Hx Hnd].
  simpl. unfold same_object. destruct i as [|i]; simpl in Hi.
  - injection Hi as ->. rewrite Nat.eqb_refl. f_equal. lia.
  - destruct (Nat.eqb_spec (FS.oid x) (FS.oid s)) as [Heq|_].
    + exfalso. apply Hx. rewrite Heq. apply list_elem_of_fmap. exists s.
      split; [done|]. by eapply list_elem_of_lookup_2.
    + rewrite (IH i (S k)) by done. f_equal. lia.
Qed.

(** On an array of distinct objects [indexOf] finds the position. *)
Lemma indexOf_lookup arr s i :
  NoDup (FS.oid <$> arr) → arr !! i = Some s → indexOf arr s = Some i.
Proof. intros. unfold indexOf. by erewrite indexOf_from_lookup. Qed.

Lemma lookup_map_states next f prev i :
  map_states next f prev !! i
  = (λ s, from_option (FS.at_oid (next + i)) s (f i s)) <$> prev !! i.
Proof. unfold map_states. by rewrite list_lookup_imap. Qed.

Lemma length_map_states next f prev :
  length (map_states next f prev) = length prev.
Proof. unfold map_states. by rewrite length_imap. Qed.

(** ** Well-formed component states are preserved *)

Lemma wf_initial : wf initial.
Proof. split; simpl; [constructor | constructor | done]. Qed.

Lemma wf_setFileStates f c :
  (∀ i s s', f i s = Some s' → FS.file s' = FS.file s) →
  wf c → wf (setFileStates f c).
Proof.
  intros Hf [Hnd Hal Hfiles]. split; simpl.
  - apply NoDup_alt. intros i j o Hi Hj.
    rewrite list_lookup_fmap, lookup_map_states in Hi, Hj.
    destruct (fileStates c !! i) as [si|] eqn:Ei; [|done].
    destruct (fileStates c !! j) as [sj|] eqn:Ej; [|done].
    simpl in Hi, Hj. injection Hi as Hi. injection Hj as Hj.
    pose proof (proj1 (Forall_lookup _ _) Hal _ _ Ei) as Hbi.
    pose proof (proj1 (Forall_lookup _ _) Hal _ _ Ej) as Hbj.
    simpl in Hbi, Hbj.
    destruct (f i si), (f j sj); simpl in Hi, Hj; try lia.
    apply (proj1 (NoDup_alt _) Hnd i j o); rewrite list_lookup_fmap;
      [rewrite Ei | rewrite Ej]; simpl; congruence.
  - apply Forall_lookup. intros i s Hi. rewrite lookup_map_states in Hi.
    destruct (fileStates c !! i) as [si|] eqn:Ei; [|done].
    injection Hi as <-.
    pose proof (proj1 (Forall_lookup _ _) Hal _ _ Ei) as Hbi. simpl in Hbi.
    pose proof (lookup_lt_Some _ _ _ Ei).
    destruct (f i si); simpl; lia.
  - rewrite <- Hfiles. apply list_eq. intros i.
    rewrite !list_lookup_fmap, lookup_map_states.
    destruct (fileStates c !! i) as [si|] eqn:Ei; [|done]. simpl.
    destruct (f i si) eqn:Ef; simpl; [|done]. f_equal. by apply (Hf i).
Qed.

Lemma wf_setConversionResults rs c : wf c → wf (setConversionResults rs c).
Proof. intros []. by split. Qed.

Lemma wf_setIsConverting b c : wf c → wf (setIsConverting b c).
Proof. intros []. by split. Qed.

Lemma remove_at_sublist {A} (index : nat) (l : list A) :
  remove_at index l `sublist_of` l.
Proof.
  unfold remove_at. rewrite <- (take_drop index l) at 3.
  apply sublist_app; [done|].
  replace (S index) with (index + 1) by lia.
  rewrite <- drop_drop. apply sublist_drop.
Qed.

Lemma fmap_remove_at {A B} (f : A → B) index (l : list A) :
  f <$> remove_at index l = remove_at index (f <$> l).
Proof. unfold remove_at. by rewrite fmap_app, fmap_take, fmap_drop. Qed.

Lemma wf_onDrop pl acceptedFiles c : wf c → wf (onDrop pl acceptedFiles c).
Proof.
  intros [Hnd Hal Hfiles]. unfold onDrop.
  set (files := filter _ acceptedFiles). split; simpl.
  - apply NoDup_alt. intros i j o Hi Hj.
    rewrite list_lookup_fmap in Hi, Hj.
    destruct (decide (i < length (fileStates c))) as [Hil|Hil];
      destruct (decide (j < length (fileStates c))) as [Hjl|Hjl].
    + rewrite lookup_app_l in Hi, Hj by done.
      apply (proj1 (NoDup_alt _) Hnd i j o); by rewrite list_lookup_fmap.
    + rewrite lookup_app_l in Hi by done. rewrite lookup_app_r in Hj by lia.
      rewrite list_lookup_imap in Hj.
      destruct (fileStates c !! i) as [si|] eqn:Ei; [|done].
      pose proof (proj1 (Forall_lookup _ _) Hal _ _ Ei) as Hb. simpl in Hb.
      destruct (files !! _); simplify_eq/=. lia.
    + rewrite lookup_app_l in Hj by done. rewrite lookup_app_r in Hi by lia.
      rewrite list_lookup_imap in Hi.
      destruct (fileStates c !! j) as [sj|] eqn:Ej; [|done].
      pose proof (proj1 (Forall_lookup _ _) Hal _ _ Ej) as Hb. simpl in Hb.
      destruct (files !! _); simplify_eq/=. lia.
    + rewrite lookup_app_r in Hi, Hj by lia.
      rewrite list_lookup_imap in Hi, Hj.
      destruct (files !! (i - _)), (files !! (j - _)); simplify_eq/=. lia.
  - apply Forall_app. split.
    + eapply Forall_impl; [exact Hal|]. simpl. intros; lia.
    + apply Forall_lookup. intros i s Hi. rewrite list_lookup_imap in Hi.
      destruct (files !! i) eqn:Ei; simplify_eq/=.
      apply lookup_lt_Some in Ei. lia.
  - rewrite fmap_app, Hfiles. f_equal. apply list_eq. intros i.
    rewrite list_lookup_fmap, list_lookup_imap. by destruct (files !! i).
Qed.

Lemma wf_removeFile index c : wf c → wf (removeFile index c).
Proof.
  intros [Hnd Hal Hfiles]. split; simpl.
  - rewrite fmap_remove_at. eapply sublist_NoDup; [done|apply remove_at_sublist].
  - apply Forall_forall. intros s Hs.
    apply (proj1 (Forall_forall _ _) Hal).
    eapply elem_of_sublist; [exact Hs|apply remove_at_sublist].
  - by rewrite fmap_remove_at, Hfiles.
Qed.

Lemma wf_clearAll c : wf c → wf (clearAll c).
Proof. intros _. split; simpl; [constructor | constructor | done]. Qed.


Lemma omap_id_fmap {A B} (f : A → option B) (l : list A) :
  omap id (f <$> l) = omap f l.
Proof.
  induction l as [|x l IH]; [done|]. csimpl. rewrite IH. by destruct (f x).
Qed.

(** At most [n] elements satisfy a property that holds only at positions
    of the window [a, a + n). *)
Lemma filter_window_length {A} (P : A → Prop) `{∀ x, Decision (P x)}
      (l : list A) (a n : nat) :
  (∀ i x, l !! i = Some x → P x → a ≤ i < a + n) →
  length (filter P l) ≤ n.
Proof.
  revert a n. induction l as [|x l IH]; intros a n Hwin; [simpl; lia|].
  rewrite filter_cons. destruct (decide (P x)) as [HP|HP].
  - destruct (Hwin 0 x eq_refl HP) as [Ha Hn].
    destruct n as [|n]; [lia|]. simpl.
    apply le_n_S, (IH 0 n). intros i y Hi Hy.
    specialize (Hwin (S i) y Hi Hy). lia.
  - destruct a as [|a].
    + apply (IH 0 n). intros i y Hi Hy. specialize (Hwin (S i) y Hi Hy).
      destruct n; lia.
    + apply (IH a n). intros i y Hi Hy. specialize (Hwin (S i) y Hi Hy). lia.
Qed.

Lemma terminal_counts (l : list FPS) :
  Forall terminal l →
  count_status completed l + count_status error l = length l
  ∧ count_status pending l = 0 ∧ count_status converting l = 0.
Proof.
  unfold count_status.
  induction 1 as [|s l Hs _ IH]; [done|]. rewrite !filter_cons.
  destruct IH as (IH1 & IH2 & IH3).
  destruct Hs as [Hs|Hs]; rewrite Hs; simpl; repeat case_decide; simplify_eq/=; lia.
Qed.

Section RunProofs.

Variable pl : Pipeline.
Variable W : nat.
Variable convert : FPS → option nat → Completion ConversionResult.t.
Variable snap : list FPS.
Hypothesis snap_distinct : NoDup (FS.oid <$> snap).

Local Abbreviation run_outcomes := (outcomes convert snap).
Local Abbreviation run_expected := (expected pl convert snap).
Local Abbreviation run_states_ok := (states_ok pl convert snap).
Local Abbreviation run_promises_ok := (promises_ok W convert snap).
Local Abbreviation run_windows := (windows_from W snap).
Local Abbreviation run_results := (results_upto convert snap).
Local Abbreviation run_inv := (inv pl W convert snap).
Local Abbreviation run_step := (step pl convert).

Lemma lookup_outcomes i :
  run_outcomes !! i = (λ s, convert s (Some i)) <$> snap !! i.
Proof. unfold outcomes. apply list_lookup_imap. Qed.

Lemma length_outcomes : length run_outcomes = length snap.
Proof. apply length_imap. Qed.

(** The positions [includes] selects are those of the window. *)
Lemma includes_window d i :
  includes (indexOf snap <$> take W (drop d snap)) i = true
  ↔ d ≤ i < d + length (take W (drop d snap)).
Proof.
  unfold includes. rewrite bool_decide_eq_true, list_elem_of_fmap. split.
  - intros (s & Hidx & Hs). apply list_elem_of_lookup in Hs as [j Hj].
    pose proof (lookup_lt_Some _ _ _ Hj) as Hlt.
    apply lookup_take_Some in Hj as [Hj _]. rewrite lookup_drop in Hj.
    rewrite (indexOf_lookup _ _ _ snap_distinct Hj) in Hidx.
    injection Hidx as ->. lia.
  - intros [Hd Hi].
    destruct (lookup_lt_is_Some_2 (take W (drop d snap)) (i - d)) as [s Hs]; [lia|].
    exists s. split; [|by eapply list_elem_of_lookup_2].
    apply lookup_take_Some in Hs as [Hs _]. rewrite lookup_drop in Hs.
    replace (d + (i - d)) with i in Hs by lia.
    symmetry. by apply indexOf_lookup.
Qed.

(** Updates of a single position. *)
Lemma lookup_update_at c i0 (g : FPS → FPS) i :
  fileStates (setFileStates (λ i s, when (is_index (Some i0) i) (g s)) c) !! i
  = (λ s, if decide (i = i0) then FS.at_oid (heap_next c + i) (g s) else s)
      <$> fileStates c !! i.
Proof.
  simpl. rewrite lookup_map_states. destruct (fileStates c !! i); [|done].
  simpl. f_equal. unfold is_index.
  destruct (decide (i = i0)) as [->|Hne].
  - by rewrite bool_decide_eq_true_2.
  - by rewrite bool_decide_eq_false_2 by congruence.
Qed.

Lemma wf_update_at c i0 (g : FPS → FPS) :
  (∀ s, FS.file (g s) = FS.file s) → wf c →
  wf (setFileStates (λ i s, when (is_index (Some i0) i) (g s)) c).
Proof.
  intros Hg. apply wf_setFileStates. intros i s s'.
  destruct (is_index _ _); simpl; [|done]. intros [= <-]. apply Hg.
Qed.

(** The effect of one update at [i0] on the invariant of the states. *)
Lemma states_ok_update c d ps ps' i0 (g : FPS → FPS) :
  (∀ s, FS.file (g s) = FS.file s) →
  run_states_ok c d ps →
  (∀ i s, i ≠ i0 → run_expected d ps i s → run_expected d ps' i s) →
  (∀ s, run_expected d ps i0 s → run_expected d ps' i0 (g s)) →
  (∀ s o, run_expected d ps' i0 s → run_expected d ps' i0 (FS.at_oid o s)) →
  run_states_ok (setFileStates (λ i s, when (is_index (Some i0) i) (g s)) c) d ps'.
Proof.
  intros Hg (Hwf & Hlen & Hexp) Hother Hat Hoid. split; [|split].
  - by apply wf_update_at.
  - simpl. by rewrite length_map_states.
  - intros i s' Hi. rewrite lookup_update_at in Hi.
    destruct (fileStates c !! i) as [s|] eqn:Es; [|done].
    injection Hi as <-. destruct (decide (i = i0)) as [->|Hne].
    + apply Hoid, Hat, Hexp, Es.
    + apply Hother, Hexp, Es. done.
Qed.

(** The invariant reads only [status], [result] and [error]. *)
Lemma expected_ext d ps i s s' :
  FS.status s' = FS.status s → FS.result s' = FS.result s →
  FS.error s' = FS.error s →
  run_expected d ps i s → run_expected d ps i s'.
Proof.
  intros Hst Hres Herr. unfold expected, settled_as, untouched.
  rewrite Hst, Hres, Herr. done.
Qed.

Lemma chunk_loop_cons fuel d chunk chunks :
  chunk_loop W snap fuel d = Some (chunk :: chunks) →
  d < length snap ∧ chunk = take W (drop d snap)
  ∧ run_windows (d + W) chunks.
Proof.
  destruct fuel as [|fuel]; [done|]. simpl.
  destruct (Nat.ltb_spec d (length snap)) as [Hlt|]; [|done].
  destruct (chunk_loop W snap fuel (d + W)) as [rest|] eqn:Erest; [|done].
  simpl. intros [= <- <-]. rewrite slice_window. split; [done|]. split; [done|].
  by exists fuel.
Qed.

Lemma chunk_loop_nil fuel d :
  chunk_loop W snap fuel d = Some [] → length snap ≤ d.
Proof.
  destruct fuel as [|fuel]; [done|]. simpl.
  destruct (Nat.ltb_spec d (length snap)) as [Hlt|]; [|done].
  by destruct (chunk_loop W snap fuel (d + W)).
Qed.

Lemma inv_dispatch c chunk chunks allResults :
  run_inv (c, ForOf snap (chunk :: chunks) allResults) →
  run_inv
    (setFileStates
       (λ i s, when (includes (indexOf snap <$> chunk) i) (converting_state pl s)) c,
     AwaitAll snap (dispatch snap <$> chunk) chunks allResults).
Proof.
  intros [_ (k & (Hwf & Hlen & Hexp) & [fuel Hfuel] & Hall)].
  apply chunk_loop_cons in Hfuel as (Hlt & -> & Hrest).
  split; [done|]. exists k. split; [|split; [|split]];
    [| |by replace (S k * W) with (k * W + W) by lia|done].
  - split; [|split].
    + apply wf_setFileStates; [|done]. intros i s s'.
      destruct (includes _ _); simpl; [|done]. by intros [= <-].
    + simpl. by rewrite length_map_states.
    + intros i s' Hi. simpl in Hi. rewrite lookup_map_states in Hi.
      destruct (fileStates c !! i) as [s|] eqn:Es; [|done].
      injection Hi as <-. specialize (Hexp i s Es).
      pose proof (includes_window (k * W) i) as Hinc.
      unfold expected in *. destruct (decide (i < k * W)) as [Hi|Hi].
      * destruct (includes _ i); [|done]. destruct Hinc as [Hinc _].
        specialize (Hinc eq_refl). lia.
      * rewrite lookup_nil in Hexp. rewrite list_lookup_fmap.
        destruct (take W (drop (k * W) snap) !! (i - k * W)) as [s0|] eqn:Et; simpl.
        -- apply lookup_lt_Some in Et.
           destruct (includes _ i); [|destruct Hinc as [_ Hinc]; discriminate Hinc; lia].
           destruct Hexp as (? & ? & ?). by split.
        -- apply lookup_ge_None in Et.
           destruct (includes _ i); [|done]. destruct Hinc as [Hinc _].
           specialize (Hinc eq_refl). lia.
  - split.
    + by rewrite length_fmap, length_take, length_drop.
    + intros j p Hj. rewrite list_lookup_fmap in Hj.
      destruct (take W (drop (k * W) snap) !! j) as [s0|] eqn:Et; [|done].
      injection Hj as <-. apply lookup_take_Some in Et as [Et _].
      rewrite lookup_drop in Et. simpl. split; [done|]. split; [|done].
      by apply indexOf_lookup.
Qed.

Lemma inv_settle c ps chunks allResults j p :
  ps !! j = Some p → task_settled p = None →
  run_inv (c, AwaitAll snap ps chunks allResults) →
  run_inv ((settle pl convert p c).1,
           AwaitAll snap (<[j := resolve p (settle pl convert p c).2]> ps)
                    chunks allResults).
Proof.
  intros Hj Hnone [_ (k & Hst & [Hplen Hp] & Hwin & Hall)].
  destruct (Hp j p Hj) as (Hsnap & Hidx & _).
  pose proof (lookup_lt_Some _ _ _ Hj) as Hjlt.
  assert (Hout : run_outcomes !! (k * W + j)
                 = Some (convert (task_state p) (Some (k * W + j)))).
  { by rewrite lookup_outcomes, Hsnap. }
  set (r := (settle pl convert p c).2).
  assert (Hr : r = resolved_value (convert (task_state p) (Some (k * W + j)))).
  { unfold r, settle. rewrite Hidx. by destruct (convert _ _). }
  assert (Hother : ∀ i s, i ≠ k * W + j →
            run_expected (k * W) ps i s →
            run_expected (k * W) (<[j := resolve p r]> ps) i s).
  { intros i s Hne. unfold expected. destruct (decide (i < k * W)); [done|].
    by rewrite list_lookup_insert_ne by lia. }
  assert (Hoid : ∀ ps' s o, run_expected (k * W) ps' (k * W + j) s →
            run_expected (k * W) ps' (k * W + j) (FS.at_oid o s)).
  { intros ps' s o. by apply expected_ext. }
  split; [done|]. exists k. split; [|split; [|split]]; [| |done|done].
  - unfold settle. rewrite Hidx.
    destruct (convert (task_state p) (Some (k * W + j))) as [res|e] eqn:Econv.
    + assert (Hc : ∀ c', run_states_ok c' (k * W) ps →
                run_states_ok
                  (setFileStates
                     (λ i s, when (is_index (Some (k * W + j)) i)
                                  (completed_state pl res s)) c')
                  (k * W) (<[j := resolve p r]> ps)).
      { intros c' Hc'. apply (states_ok_update _ _ ps); [done|done|done| |done].
        intros s. unfold expected. destruct (decide (k * W + j < k * W)); [lia|].
        replace (k * W + j - k * W) with j by lia.
        rewrite Hj, Hnone, list_lookup_insert_eq by done. simpl.
        intros (? & ? & ?). exists (Return res). by rewrite Hout. }
      assert (H1 : run_states_ok
                     (setFileStates
                        (λ i s, when (is_index (Some (k * W + j)) i)
                                     (full_progress s)) c)
                     (k * W) ps).
      { apply (states_ok_update _ _ ps); [done|done|done| |done].
        intros s. by apply expected_ext. }
      simpl. apply Hc. by destruct pl.
    + simpl. apply (states_ok_update _ _ ps); [done|done|done| |done].
      intros s. unfold expected. destruct (decide (k * W + j < k * W)); [lia|].
      replace (k * W + j - k * W) with j by lia.
      rewrite Hj, Hnone, list_lookup_insert_eq by done. simpl.
      intros (? & ? & ?). exists (Throw e). by rewrite Hout.
  - split; [by rewrite length_insert|]. intros j' p' Hj'.
    destruct (decide (j' = j)) as [->|Hne].
    + rewrite list_lookup_insert_eq in Hj' by done. injection Hj' as <-. simpl.
      split; [done|]. split; [done|]. intros r' [= <-]. eauto.
    + rewrite list_lookup_insert_ne in Hj' by done. by apply Hp.
Qed.

Lemma inv_join c ps chunks allResults results :
  promise_all ps = Some results →
  run_inv (c, AwaitAll snap ps chunks allResults) →
  run_inv (c, ForOf snap chunks (allResults ++ non_null results)).
Proof.
  intros Hall [_ (k & (Hwf & Hlen & Hexp) & [Hplen Hp] & Hwin & ->)].
  apply mapM_Some in Hall.
  pose proof (Forall2_length _ _ _ Hall) as Hrlen.
  split; [done|]. exists (S k). split; [|split]; [|done|].
  - split; [done|]. split; [done|]. intros i s Hi.
    pose proof (lookup_lt_Some _ _ _ Hi) as Hilt.
    specialize (Hexp i s Hi). unfold expected in *.
    rewrite lookup_nil. destruct (decide (i < k * W)) as [Hk|Hk].
    + rewrite decide_True by lia. done.
    + destruct (ps !! (i - k * W)) as [p|] eqn:Ep.
      * pose proof (lookup_lt_Some _ _ _ Ep).
        rewrite decide_True by lia.
        destruct (Forall2_lookup_l _ _ _ _ _ Hall Ep) as (y & _ & Hy).
        by rewrite Hy in Hexp.
      * apply lookup_ge_None in Ep. rewrite decide_False by lia. done.
  - unfold results_upto.
    replace (S k * W) with (k * W + W) by lia.
    rewrite <- take_take_drop, omap_app. f_equal.
    unfold non_null. rewrite <- (omap_id_fmap resolved_value). f_equal.
    apply list_eq. intros j. rewrite list_lookup_fmap.
    destruct (ps !! j) as [p|] eqn:Ep.
    + destruct (Forall2_lookup_l _ _ _ _ _ Hall Ep) as (y & Hy & Hset).
      destruct (Hp j p Ep) as (_ & _ & Hres).
      destruct (Hres y Hset) as (o & Ho & ->).
      pose proof (lookup_lt_Some _ _ _ Ep).
      rewrite Hy, lookup_take_lt, lookup_drop, Ho by lia. done.
    + apply lookup_ge_None in Ep.
      rewrite (proj2 (lookup_ge_None _ _)) by lia.
      destruct (decide (W ≤ j)) as [HWj|HWj].
      * by rewrite lookup_take_ge.
      * rewrite lookup_take_lt, lookup_drop by lia.
        rewrite (proj2 (lookup_ge_None _ _)); [done|].
        rewrite length_outcomes. lia.
Qed.

Lemma inv_return c allResults :
  run_inv (c, ForOf snap [] allResults) →
  run_inv (setIsConverting false (setConversionResults allResults c), Returned).
Proof.
  intros [_ (k & (Hwf & Hlen & Hexp) & [fuel Hfuel] & ->)].
  apply chunk_loop_nil in Hfuel. split; [|split]; [|simpl|done].
  - split; [|split]; [by apply wf_setIsConverting, wf_setConversionResults|done|].
    simpl. intros i s Hi. pose proof (lookup_lt_Some _ _ _ Hi).
    specialize (Hexp i s Hi). unfold expected in *.
    rewrite Hlen in *. rewrite decide_True in Hexp by lia.
    by rewrite decide_True by lia.
  - unfold results_upto. by rewrite !take_ge by (rewrite length_outcomes; lia).
Qed.

(** Every step of a run keeps the invariant. *)
Lemma inv_step st st' : run_step st st' → run_inv st → run_inv st'.
Proof.
  destruct 1 as [c snapshot chunk chunks allResults indices
                |c snapshot ps chunks allResults k p Hk Hnone
                |c snapshot ps chunks allResults results Hall
                |c snapshot allResults]; intros Hinv;
    assert (snapshot = snap) as -> by (by destruct Hinv).
  - by apply inv_dispatch.
  - by apply inv_settle.
  - by eapply inv_join.
  - by apply inv_return.
Qed.

Lemma inv_steps st st' : rtc run_step st st' → run_inv st → run_inv st'.
Proof. induction 1; eauto using inv_step. Qed.

End RunProofs.

(** ** Progress and termination of a run *)

Section RunProgress.

Variable pl : Pipeline.
Variable convert : FPS → option nat → Completion ConversionResult.t.

Local Abbreviation run_step := (step pl convert).
Local Abbreviation run_next := (next pl convert).

(** The deterministic schedule is one of the runs. *)
Lemma next_step st st' : run_next st = Some st' → run_step st st'.
Proof.
  destruct st as [c [snapshot [|chunk chunks] allResults
                    |snapshot ps chunks allResults|]]; simpl.
  - intros [= <-]. constructor.
  - intros [= <-]. apply step_dispatch.
  - destruct (first_unsettled ps) as [[k p]|] eqn:Efind.
    + intros [= <-]. apply list_find_Some in Efind as (Hk & Hnone & _).
      by apply step_settle.
    + destruct (promise_all ps) as [results|] eqn:Eall; simpl; [|done].
      intros [= <-]. by apply step_join.
  - done.
Qed.

(** A run that has not returned can always take a step: no state of
    the orchestrator is stuck. *)
Lemma next_is_Some c k : k ≠ Returned → is_Some (run_next (c, k)).
Proof.
  destruct k as [snapshot [|chunk chunks] allResults
                |snapshot ps chunks allResults|]; simpl; [by eauto..| |done].
  intros _. destruct (first_unsettled ps) as [[k p]|] eqn:Efind; [by eauto|].
  apply list_find_None in Efind.
  destruct (mapM_is_Some_2 task_settled ps) as [results Hres].
  - eapply Forall_impl; [exact Efind|]. simpl. intros p Hp.
    by destruct (task_settled p).
  - unfold promise_all. rewrite Hres. simpl. eauto.
Qed.

Lemma unsettled_resolve ps j p r :
  ps !! j = Some p → task_settled p = None →
  unsettled (<[j := resolve p r]> ps) < unsettled ps.
Proof.
  unfold unsettled. revert j.
  induction ps as [|q ps IH]; intros [|j] Hj Hnone; [done|done| |].
  - injection Hj as ->. cbn [list_insert insert].
    rewrite (filter_cons_True _ p) by done.
    rewrite filter_cons_False by done. simpl. lia.
  - specialize (IH j Hj Hnone). cbn [list_insert insert]. rewrite !filter_cons.
    destruct (decide (task_settled q = None)); simpl;
      [apply le_n_S|]; exact IH.
Qed.

Lemma step_remaining st st' : run_step st st' → remaining st' < remaining st.
Proof.
  destruct 1 as [c snapshot chunk chunks allResults indices
                |c snapshot ps chunks allResults k p Hk Hnone
                |c snapshot ps chunks allResults results Hall
                |c snapshot allResults]; unfold remaining; cbn [snd].
  - pose proof (length_filter (λ p, task_settled p = None)
                  (dispatch snapshot <$> chunk)) as Hle.
    rewrite length_fmap in Hle.
    change (backlog (chunk :: chunks)) with (2 + length chunk + backlog chunks).
    unfold unsettled. lia.
  - pose proof (unsettled_resolve ps k p (settle pl convert p c).2 Hk Hnone). lia.
  - lia.
  - lia.
Qed.

(** Runs are finite: no run takes more than [remaining] steps. *)
Lemma nsteps_remaining n st st' : nsteps run_step n st st' → n ≤ remaining st.
Proof.
  induction 1 as [|n st st1 st2 Hstep _ IH]; [lia|].
  apply step_remaining in Hstep. lia.
Qed.

(** From every state the run returns, and [run] computes a final state. *)
Lemma run_returns st :
  ∃ cf, rtc run_step st (cf, Returned)
        ∧ run pl convert (remaining st) st = (cf, Returned).
Proof.
  remember (remaining st) as n eqn:Hn. revert st Hn.
  induction n as [n IH] using lt_wf_ind. intros [c k] Hn.
  assert (Hcase : k = Returned ∨ k ≠ Returned) by (destruct k; eauto).
  destruct Hcase as [->|Hk].
  - exists c. split; [done|]. subst n. done.
  - destruct (next_is_Some c k Hk) as [st' Hnext].
    pose proof (next_step _ _ Hnext) as Hstep.
    pose proof (step_remaining _ _ Hstep) as Hlt.
    destruct (IH (remaining st')) with (st := st') as (cf & Hrtc & Hrun);
      [lia|done|].
    exists cf. split; [by eapply rtc_l|].
    destruct n as [|n]; [lia|]. cbn [run]. rewrite Hnext.
    assert (Hmore : ∀ m st1, run pl convert m st1 = (cf, Returned) →
                      ∀ m', m ≤ m' → run pl convert m' st1 = (cf, Returned)).
    { clear. induction m as [|m IHm]; intros st1 Hrun m' Hle.
      - simpl in Hrun. subst st1. by destruct m'.
      - destruct m' as [|m']; [lia|]. cbn [run] in *.
        destruct (next pl convert st1); [|done]. apply IHm; [done|lia]. }
    apply (Hmore _ _ Hrun). lia.
Qed.

End RunProgress.

(** ** Entering a run *)

Section RunEnter.

Variable pl : Pipeline.
Variable W : nat.
Variable convert : FPS → option nat → Completion ConversionResult.t.

Lemma convertAll_enter_empty c :
  wf c → fileStates c = [] → convertAll_enter pl W c = Some (c, Returned).
Proof.
  intros [_ _ Hfiles] Hnil. unfold convertAll_enter.
  rewrite <- Hfiles, Hnil. by destruct pl.
Qed.

(** With a positive window the handler reaches its loop, every state
    object reset and the previous results dropped. *)
Lemma convertAll_enter_inv c :
  wf c → fileStates c ≠ [] → 1 ≤ W →
  ∃ c' chunks,
    convertAll_enter pl W c = Some (c', ForOf (fileStates c) chunks [])
    ∧ inv pl W convert (fileStates c) (c', ForOf (fileStates c) chunks [])
    ∧ Forall (untouched pending) (fileStates c')
    ∧ conversionResults c' = [].
Proof.
  intros Hwf Hne HW.
  destruct (make_chunks_spec W (fileStates c) HW) as (chunks & Hchunks & _).
  set (c' := setFileStates (λ _ s, Some (reset_state pl s))
               (setConversionResults [] (setIsConverting true c))).
  exists c', chunks.
  assert (Henter : convertAll_enter pl W c
                   = Some (c', ForOf (fileStates c) chunks [])).
  { unfold convertAll_enter. destruct Hwf as [_ _ Hfiles].
    rewrite <- Hfiles, length_fmap.
    assert (length (fileStates c) ≠ 0) as Hlen by (by destruct (fileStates c)).
    replace (match pl with Image | Audio => (length (fileStates c) =? 0) end)
      with false by (destruct pl; symmetry; by apply Nat.eqb_neq).
    simpl. by rewrite Hchunks. }
  assert (Hreset : ∀ i s, fileStates c' !! i = Some s → untouched pending s).
  { intros i s Hi. unfold c' in Hi. simpl in Hi.
    rewrite lookup_map_states in Hi.
    destruct (fileStates c !! i); [|done]. by injection Hi as <-. }
  split; [done|]. split; [|split; [|done]].
  - split; [done|]. exists 0. split; [|split].
    + split; [|split].
      * apply wf_setFileStates; [by intros ??? [= <-]|].
        by apply wf_setConversionResults, wf_setIsConverting.
      * simpl. by rewrite length_map_states.
      * intros i s Hi. unfold expected.
        rewrite decide_False, lookup_nil by lia. eauto.
    + by exists (S (length (fileStates c))).
    + done.
  - apply Forall_lookup. eauto.
Qed.

(** The invariant holds throughout a run started on a non-empty batch. *)
Lemma run_inv c st0 st :
  wf c → fileStates c ≠ [] → 1 ≤ W →
  convertAll_enter pl W c = Some st0 →
  rtc (step pl convert) st0 st →
  inv pl W convert (fileStates c) st.
Proof.
  intros Hwf Hne HW Henter Hsteps.
  destruct (convertAll_enter_inv c Hwf Hne HW) as (c' & chunks & Heq & Hinv & _).
  rewrite Heq in Henter. injection Henter as <-.
  eapply inv_steps; [|exact Hsteps|exact Hinv]. by destruct Hwf.
Qed.

(** A run on the empty batch is a no-op. *)
Lemma run_empty c st0 st :
  wf c → fileStates c = [] →
  convertAll_enter pl W c = Some st0 →
  rtc (step pl convert) st0 st → st = (c, Returned).
Proof.
  intros Hwf Hnil Henter Hsteps.
  rewrite convertAll_enter_empty in Henter by done. injection Henter as <-.
  apply rtc_inv in Hsteps as [<-|(st' & Hstep & _)]; [done|]. inversion Hstep.
Qed.

(** Where a state object stands, by its position. *)
Lemma expected_position snap d ps i s :
  expected pl convert snap d ps i s →
  (i < d ∧ terminal s)
  ∨ (d ≤ i < d + length ps ∧ (terminal s ∨ FS.status s = converting))
  ∨ (d + length ps ≤ i ∧ FS.status s = pending).
Proof.
  unfold expected, settled_as, untouched, terminal.
  destruct (decide (i < d)) as [Hi|Hi].
  - intros ([r|e] & _ & Hs & _); left; split; auto.
  - destruct (ps !! (i - d)) as [p|] eqn:Ep.
    + apply lookup_lt_Some in Ep. intros Hs. right; left. split; [lia|].
      destruct (task_settled p); [|by right; destruct Hs].
      destruct Hs as ([r|e] & _ & Hs & _); left; auto.
    + apply lookup_ge_None in Ep. intros [Hs _]. right; right. split; [lia|done].
Qed.

End RunEnter.

Lemma window_before (W i j k : nat) :
  1 ≤ W → i / W < j / W → j < k * W + W → i < k * W.
Proof.
  intros HW Hij Hj.
  assert (j / W < S k) as Hjk by (apply Nat.Div0.div_lt_upper_bound; lia).
  destruct (decide (i < k * W)) as [|Hge]; [done|].
  assert (k ≤ i / W) by (apply Nat.div_le_lower_bound; lia). lia.
Qed.

Section RunLayout.

Variable pl : Pipeline.
Variable W : nat.
Variable convert : FPS → option nat → Completion ConversionResult.t.
Variable snap : list FPS.

(** In every state of a run the tasks before window [k] are done, the
    tasks after the window are pending, and the window has at most [W]
    tasks. *)
Lemma inv_layout st :
  1 ≤ W → inv pl W convert snap st →
  ∃ k n, n ≤ W ∧ ∀ i s, fileStates st.1 !! i = Some s →
    (i < k * W ∧ terminal s)
    ∨ (k * W ≤ i < k * W + n ∧ (terminal s ∨ FS.status s = converting))
    ∨ (k * W + n ≤ i ∧ FS.status s = pending).
Proof.
  intros HW. destruct st as [c [snapshot chunks allResults
                               |snapshot ps chunks allResults|]]; simpl.
  - intros [_ (k & (_ & _ & Hexp) & _)]. exists k, 0. split; [lia|].
    intros i s Hi. apply Hexp, expected_position in Hi. simpl in Hi.
    destruct Hi as [?|[?|?]]; [by left|lia|by right; right].
  - intros [_ (k & (_ & _ & Hexp) & [Hlen _] & _)]. exists k, (length ps).
    split; [lia|]. intros i s Hi. by apply Hexp, expected_position in Hi.
  - intros ((_ & Hlen & Hexp) & _). exists (length snap), 0. split; [lia|].
    intros i s Hi. pose proof (lookup_lt_Some _ _ _ Hi).
    apply Hexp, expected_position in Hi. left.
    destruct Hi as [[_ ?]|[?|?]]; [|lia|lia]. split; [nia|done].
Qed.

End RunLayout.

(** ** The orchestrator: windows, terminal states, order, isolation, reruns *)

(** C1.  Throughout a run with window [W], at most [W] tasks are in the
    [converting] state, and the windows are processed one after the other:
    as soon as a task of a window is no longer [pending], every task of
    every earlier window is [completed] or [error].  The window of the task
    at position [i] is [i / W]. *)
Theorem converting_bounded_and_windows_sequential
    pl W convert (c : Component) st0 st :
  wf c → 1 ≤ W →
  convertAll_enter pl W c = Some st0 →
  rtc (step pl convert) st0 st →
  count_status converting (fileStates st.1) ≤ W
  ∧ ∀ i j si sj,
      fileStates st.1 !! i = Some si →
      fileStates st.1 !! j = Some sj →
      i / W < j / W →
      FS.status sj ≠ pending →
      terminal si.
Proof.
  intros Hwf HW Henter Hsteps.
  destruct (decide (fileStates c = [])) as [Hnil|Hne].
  - rewrite (run_empty pl W convert c st0 st) by done. simpl. rewrite Hnil.
    split; [unfold count_status; simpl; lia|]. by intros i j si sj.
  - pose proof (run_inv pl W convert c st0 st Hwf Hne HW Henter Hsteps) as Hinv.
    destruct (inv_layout pl W convert _ st HW Hinv) as (k & n & Hn & Hlay).
    split.
    + unfold count_status. etrans; [|exact Hn].
      apply (filter_window_length _ _ (k * W) n). intros i s Hi Hconv.
      destruct (Hlay i s Hi) as [[_ Ht]|[[? _]|[_ Hp]]]; [|done|congruence].
      destruct Ht; congruence.
    + intros i j si sj Hi Hj Hij Hsj.
      assert (j < k * W + W) as Hjw.
      { destruct (Hlay j sj Hj) as [[? _]|[[? _]|[_ ?]]]; [lia|lia|done]. }
      pose proof (window_before W i j k HW Hij Hjw).
      destruct (Hlay i si Hi) as [[_ ?]|[[? _]|[? _]]]; [done|lia|lia].
Qed.

(** What a returned run leaves behind (non-empty batch). *)
Lemma run_final pl W convert (c : Component) st0 cf :
  wf c → fileStates c ≠ [] → 1 ≤ W →
  convertAll_enter pl W c = Some st0 →
  rtc (step pl convert) st0 (cf, Returned) →
  wf cf
  ∧ length (fileStates cf) = length (fileStates c)
  ∧ conversionResults cf = omap resolved_value (outcomes convert (fileStates c))
  ∧ isConverting cf = false
  ∧ ∀ i s, fileStates cf !! i = Some s →
      ∃ s0, fileStates c !! i = Some s0
            ∧ settled_as pl (convert s0 (Some i)) s.
Proof.
  intros Hwf Hne HW Henter Hsteps.
  pose proof (run_inv pl W convert c st0 _ Hwf Hne HW Henter Hsteps) as Hinv.
  destruct Hinv as ((Hwf' & Hlen & Hexp) & Hres & Hconv).
  split; [done|]. split; [done|]. split; [|split; [done|]].
  - rewrite Hres. unfold results_upto. rewrite take_ge; [done|].
    unfold outcomes. by rewrite length_imap.
  - intros i s Hi. pose proof (lookup_lt_Some _ _ _ Hi) as Hlt.
    specialize (Hexp i s Hi). unfold expected in Hexp.
    rewrite decide_True in Hexp by lia. destruct Hexp as (o & Ho & Hs).
    unfold outcomes in Ho. rewrite list_lookup_imap in Ho.
    destruct (fileStates c !! i) as [s0|]; [|done]. injection Ho as <-. eauto.
Qed.

(** X2.  Every state the component reaches is well formed. *)
Lemma reachable_wf pl c : reachable pl c → wf c.
Proof.
  induction 1 as [|c files _ IH|c index _ IH|c _ IH|c W convert st0 cf _ IH HW Henter Hcf].
  - apply wf_initial.
  - by apply wf_onDrop.
  - by apply wf_removeFile.
  - by apply wf_clearAll.
  - destruct (decide (fileStates c = [])) as [Hnil|Hne].
    + apply (run_empty pl W convert c st0 _ IH Hnil Henter) in Hcf.
      by injection Hcf as ->.
    + by destruct (run_final pl W convert c st0 cf IH Hne HW Henter Hcf).
Qed.

(** With a zero window the handler never reaches its loop. *)
Lemma convertAll_enter_zero pl c :
  wf c → fileStates c ≠ [] → convertAll_enter pl 0 c = None.
Proof.
  intros [_ _ Hfiles] Hne. unfold convertAll_enter.
  rewrite <- Hfiles, length_fmap.
  assert (length (fileStates c) ≠ 0) as Hlen by (by destruct (fileStates c)).
  replace (match pl with Image | Audio => (length (fileStates c) =? 0) end)
    with false by (destruct pl; symmetry; by apply Nat.eqb_neq).
  simpl. unfold make_chunks. rewrite chunk_loop_zero; [done|lia].
Qed.

(** C2.  A run can always be carried to its end, and when it has returned
    every task of the batch is [completed] or [error]: the two counts add
    up to the size of the batch, and no task is [pending] or
    [converting]. *)
Theorem every_task_reaches_terminal_state pl W convert (c : Component) :
  wf c → 1 ≤ W →
  ∃ st0,
    convertAll_enter pl W c = Some st0
    ∧ (∀ st, rtc (step pl convert) st0 st →
         ∃ cf, rtc (step pl convert) st (cf, Returned))
    ∧ ∀ cf, rtc (step pl convert) st0 (cf, Returned) →
        length (fileStates cf) = length (fileStates c)
        ∧ count_status completed (fileStates cf)
          + count_status error (fileStates cf) = length (fileStates c)
        ∧ count_status pending (fileStates cf) = 0
        ∧ count_status converting (fileStates cf) = 0.
Proof.
  intros Hwf HW.
  assert (Hdone : ∀ st, ∃ cf, rtc (step pl convert) st (cf, Returned)).
  { intros st. destruct (run_returns pl convert st) as (cf & Hcf & _). eauto. }
  destruct (decide (fileStates c = [])) as [Hnil|Hne].
  - exists (c, Returned). split; [by apply convertAll_enter_empty|].
    split; [by eauto|]. intros cf Hcf.
    apply rtc_inv in Hcf as [[= <-]|(st' & Hstep & _)]; [|inversion Hstep].
    by rewrite Hnil.
  - destruct (convertAll_enter_inv pl W convert c Hwf Hne HW)
      as (c' & chunks & Henter & _).
    eexists. split; [exact Henter|]. split; [by eauto|]. intros cf Hcf.
    destruct (run_final pl W convert c _ cf Hwf Hne HW Henter Hcf)
      as (_ & Hlen & _ & _ & Hfin).
    split; [done|]. rewrite <- Hlen. apply terminal_counts.
    apply Forall_lookup. intros i s Hi.
    destruct (Hfin i s Hi) as (s0 & _ & Hs). unfold terminal.
    destruct (convert s0 (Some i)); destruct Hs as (-> & _); auto.
Qed.


(** C3.  When a run on a non-empty batch has returned, [conversionResults]
    lists the results of the [completed] tasks in the order of their tasks
    in the batch, whatever the order in which the conversions of a window
    settled. *)
Theorem results_in_submission_order pl W convert (c : Component) st0 cf :
  wf c → 1 ≤ W → fileStates c ≠ [] →
  convertAll_enter pl W c = Some st0 →
  rtc (step pl convert) st0 (cf, Returned) →
  conversionResults cf = completed_results (fileStates cf)
  ∧ conversionResults cf
    = omap resolved_value (outcomes convert (fileStates c)).
Proof.
  intros Hwf HW Hne Henter Hcf.
  destruct (run_final pl W convert c _ cf Hwf Hne HW Henter Hcf)
    as (_ & Hlen & Hres & _ & Hfin).
  split; [|done]. rewrite Hres. unfold completed_results.
  rewrite <- (omap_id_fmap resolved_value), <- (omap_id_fmap (λ s : FPS, _)).
  f_equal. apply list_eq. intros i. rewrite !list_lookup_fmap.
  unfold outcomes. rewrite list_lookup_imap.
  destruct (fileStates cf !! i) as [s|] eqn:Es.
  - destruct (Hfin i s Es) as (s0 & -> & Hs). simpl.
    destruct (convert s0 (Some i)); destruct Hs as (Hst & -> & _);
      rewrite Hst; by case_decide.
  - apply lookup_ge_None in Es. rewrite Hlen in Es.
    apply lookup_ge_None in Es. by rewrite Es.
Qed.



(** ** Running a batch twice *)

Lemma step_selectedFiles pl convert st st' :
  step pl convert st st' → selectedFiles st'.1 = selectedFiles st.1.
Proof.
  destruct 1 as [c snapshot chunk chunks allResults indices
                |c snapshot ps chunks allResults k p Hk Hnone
                |c snapshot ps chunks allResults results Hall
                |c snapshot allResults]; simpl; try done.
  unfold settle. destruct (convert _ _); simpl; [|done]. by destruct pl.
Qed.

Lemma steps_selectedFiles pl convert st st' :
  rtc (step pl convert) st st' → selectedFiles st'.1 = selectedFiles st.1.
Proof.
  induction 1 as [|st st1 st2 Hstep _ IH]; [done|].
  rewrite IH. by eapply step_selectedFiles.
Qed.

Lemma convertAll_enter_selectedFiles pl W c st0 :
  convertAll_enter pl W c = Some st0 → selectedFiles st0.1 = selectedFiles c.
Proof.
  unfold convertAll_enter. case_match; [by intros [= <-]|].
  destruct (make_chunks _ _); simpl; [|done]. by intros [= <-].
Qed.



(** ** The three-image batch *)

Lemma run_steps pl convert n st : rtc (step pl convert) st (run pl convert n st).
Proof.
  revert st. induction n as [|n IH]; intros st; [done|]. simpl.
  destruct (next pl convert st) as [st'|] eqn:Hnext; [|done].
  eapply rtc_l; [by apply next_step|apply IH].
Qed.

Lemma scenario_wf : wf Scenario.batch.
Proof. apply wf_onDrop, wf_initial. Qed.

Lemma scenario_entered :
  convertAll_enter Image 2 Scenario.batch = Some Scenario.entered.
Proof. reflexivity. Qed.

Lemma scenario_returned :
  rtc (step Image Scenario.convert) Scenario.entered (Scenario.final, Returned).
Proof.
  change (Scenario.final, Returned)
    with (run Image Scenario.convert 8 Scenario.entered).
  apply run_steps.
Qed.


Lemma converting_bounded_and_windows_sequential_witness :
  count_status converting (fileStates Scenario.midway.1) ≤ 2
  ∧ ∀ i j si sj,
      fileStates Scenario.midway.1 !! i = Some si →
      fileStates Scenario.midway.1 !! j = Some sj →
      i / 2 < j / 2 →
      FS.status sj ≠ pending →
      terminal si.
Proof.
  apply (converting_bounded_and_windows_sequential
           Image 2 Scenario.convert Scenario.batch Scenario.entered Scenario.midway).
  - exact scenario_wf.
  - lia.
  - reflexivity.
  - apply run_steps.
Defined.

Lemma every_task_reaches_terminal_state_witness :
  ∃ st0,
    convertAll_enter Image 2 Scenario.batch = Some st0
    ∧ (∀ st, rtc (step Image Scenario.convert) st0 st →
         ∃ cf, rtc (step Image Scenario.convert) st (cf, Returned))
    ∧ ∀ cf, rtc (step Image Scenario.convert) st0 (cf, Returned) →
        length (fileStates cf) = length (fileStates Scenario.batch)
        ∧ count_status completed (fileStates cf)
          + count_status error (fileStates cf)
          = length (fileStates Scenario.batch)
        ∧ count_status pending (fileStates cf) = 0
        ∧ count_status converting (fileStates cf) = 0.
Proof.
  apply (every_task_reaches_terminal_state Image 2 Scenario.convert Scenario.batch).
  - exact scenario_wf.
  - lia.
Defined.

Lemma results_in_submission_order_witness :
  conversionResults Scenario.final = completed_results (fileStates Scenario.final)
  ∧ conversionResults Scenario.final
    = omap resolved_value (outcomes Scenario.convert (fileStates Scenario.batch)).
Proof.
  apply (results_in_submission_order
           Image 2 Scenario.convert Scenario.batch Scenario.entered Scenario.final).
  - exact scenario_wf.
  - lia.
  - discriminate.
  - reflexivity.
  - exact scenario_returned.
Defined.



(** The batch of three tasks whose second conversion fails, under every
    schedule: the first and third tasks end [completed], the second
    [error]. *)
Example three_tasks_second_fails cf :
  rtc (step Image Scenario.convert) Scenario.entered (cf, Returned) →
  FS.status <$> fileStates cf = [completed; error; completed].
Proof.
  intros Hcf.
  destruct (run_final Image 2 Scenario.convert Scenario.batch _ cf
              scenario_wf ltac:(discriminate) ltac:(lia) scenario_entered Hcf)
    as (_ & Hlen & _ & _ & Hfin).
  apply list_eq. intros i. rewrite list_lookup_fmap.
  destruct (fileStates cf !! i) as [s|] eqn:Es.
  - destruct (Hfin i s Es) as (s0 & Hs0 & Hs).
    destruct i as [|[|[|i]]]; simpl in Hs0; [| | |done];
      injection Hs0 as <-; unfold settled_as in Hs;
      destruct (Scenario.convert _ _) eqn:E in Hs; vm_compute in E;
      try discriminate E; destruct Hs as (Hst & _); simpl; by rewrite Hst.
  - apply lookup_ge_None in Es. rewrite Hlen in Es.
    by destruct i as [|[|[|i]]]; [simpl in Es; lia..|].
Qed.

(** ** The endpoint *)

Section EndpointProofs.

Import Endpoint.

Variable toBuffer : SharpCall → Completion (list Byte.byte).
Variable metadata : list Byte.byte → Completion Metadata.

Lemma clamp_quality_range q : (1 ≤ clamp_quality q ≤ 100)%Z.
Proof. unfold clamp_quality. lia. Qed.

(** Every encoder the optimized switch selects has its quality clamped. *)
Lemma select_encoder_optimized_range targetFormat quality rs rs' enc actualFormat buffer :
  select_encoder_optimized targetFormat quality rs = Some (rs', enc, actualFormat) →
  quality_in_range (mkSharpCall buffer rs' enc).
Proof.
  unfold select_encoder_optimized, quality_in_range.
  repeat (case_match; [intros [= <- <- <-]; simpl; auto using clamp_quality_range|]).
  done.
Qed.


Lemma select_encoder_supported targetFormat quality :
  supported targetFormat = false ↔ select_encoder targetFormat quality = None.
Proof.
  unfold supported, select_encoder, supported_formats.
  rewrite bool_decide_eq_false. set (lower := JS.toLowerCase targetFormat).
  rewrite !elem_of_cons, elem_of_nil.
  repeat match goal with
         | |- context [String.eqb lower ?x] => destruct (String.eqb_spec lower x)
         end; simpl; split; try done; try tauto; intros _; tauto.
Qed.

Lemma select_encoder_optimized_supported targetFormat quality rs :
  supported targetFormat = false
  ↔ select_encoder_optimized targetFormat quality rs = None.
Proof.
  unfold supported, select_encoder_optimized, supported_formats.
  rewrite bool_decide_eq_false. set (lower := JS.toLowerCase targetFormat).
  rewrite !elem_of_cons, elem_of_nil.
  repeat match goal with
         | |- context [String.eqb lower ?x] => destruct (String.eqb_spec lower x)
         end; simpl; split; try done; try tauto; intros _; tauto.
Qed.

(** What the [catch] block of the optimized route answers. *)
Lemma on_error_cases e :
  let unsupported :=
    match e with
    | JS.ErrorObject m => JS.includes m "Input file contains unsupported image format"
    | JS.NonError => false
    end in
  let too_large :=
    match e with
    | JS.ErrorObject m => JS.includes m "Input image exceeds pixel limit"
    | JS.NonError => false
    end in
  json_error (on_error e)
    (if unsupported then 400 else if too_large then 413 else 500).
Proof.
  unfold json_error, on_error. destruct e as [m|]; simpl; [|by eauto].
  destruct (JS.includes m _); [by eauto|]. destruct (JS.includes m _); by eauto.
Qed.

Lemma on_error_status e :
  ∃ status,
    json_error (on_error e) status
    ∧ (status = 400 ∨ status = 413 ∨ status = 500)
    ∧ (status = 400 ↔ ∃ m, e = JS.ErrorObject m
         ∧ JS.includes m "Input file contains unsupported image format" = true).
Proof.
  unfold json_error, on_error. destruct e as [m|].
  - destruct (JS.includes m "Input file contains unsupported image format") eqn:E1;
      [|destruct (JS.includes m "Input image exceeds pixel limit") eqn:E2].
    + exists 400. split; [by eauto|]. split; [by left|]. split; [by eauto|done].
    + exists 413. split; [by eauto|]. split; [by right; left|]. split; [intros ?; lia|].
      intros (m' & Hm & E3). injection Hm as <-. congruence.
    + exists 500. split; [by eauto|]. split; [by right; right|]. split; [intros ?; lia|].
      intros (m' & Hm & E3). injection Hm as <-. congruence.
  - exists 500. split; [by eauto|]. split; [by right; right|]. split; [intros ?; lia|].
    intros (m' & Hm & _). discriminate Hm.
Qed.

End EndpointProofs.






(** ** The name of a converted image *)

(** C6 on the code: whatever the endpoint answers, [convertSingleImage]
    names its result after the requested format.  For the request of an
    ["ico"] the endpoint produces PNG bytes, types them [image/png] and
    names them [<stem>.png]; the result built by the component carries
    that blob under a name ending in [.ico]. *)
Theorem ico_result_is_named_ico
    (toBuffer : Endpoint.SharpCall → Completion (list Byte.byte))
    (metadata : list Byte.byte → Completion Endpoint.Metadata)
    (quality : N) (downloadUrl : string) (fileState : FPS)
    (r : ConversionResult.t) :
  let request :=
    Endpoint.mkFormData (Some (FS.file fileState)) (Some "ico")
                        (Some (JS.toString quality)) in
  ImageConverter.convertSingleImage "ico" quality
    (λ formData, Return (Endpoint.POST toBuffer metadata (Return formData)))
    downloadUrl fileState = Return r →
  ConversionResult.convertedName r
  = JS.split_head "." (File.name (FS.file fileState)) ++ ".ico"
  ∧ Blob.type (ConversionResult.blob r) = "image/png"
  ∧ Endpoint.header "Content-Disposition"
      (Endpoint.POST toBuffer metadata (Return request))
    = Some (attachment (File.name (FS.file fileState)) "png").
Proof.
  intros request. unfold ImageConverter.convertSingleImage. fold request.
  unfold Endpoint.POST, request. cbn [Endpoint.file Endpoint.format].
  destruct (_ <? _)%N; [done|].
  destruct (metadata _) as [m|e].
  - change (Endpoint.select_encoder_optimized "ico" _ _)
      with (Some (Endpoint.Contain 256 256, Endpoint.png, "png")).
    cbn iota beta. destruct (toBuffer _) as [data|e].
    + intros [= <-]. by repeat split.
    + destruct (on_error_status e) as (st & [Hst _] & Hcases & _).
      unfold ImageConverter.ok. rewrite Hst.
      by destruct Hcases as [-> | [-> | ->]].
  - destruct (on_error_status e) as (st & [Hst _] & Hcases & _).
    unfold ImageConverter.ok. rewrite Hst.
    by destruct Hcases as [-> | [-> | ->]].
Qed.

(** The three ways the sources cut the extension off a file name: the
    image component keeps what precedes the first dot, the endpoint and
    the audio component what precedes the last one. *)
Example stems_of_a_dotted_name :
  JS.split_head "." "my.photo.jpg" = "my"
  ∧ Endpoint.nameWithoutExt "my.photo.jpg" = "my.photo"
  ∧ JS.strip_extension "my.photo.jpg" = "my.photo".
Proof. by repeat split. Qed.

Lemma ico_result_is_named_ico_witness :
  ConversionResult.convertedName
    (ConversionResult.mk "photo.jpg" "photo.ico" "blob:1" "0.0 KB"
       (Blob.mk "image/png" (File.payload Scenario.photo)))
  = "photo.ico"
  ∧ Blob.type
      (ConversionResult.blob
         (ConversionResult.mk "photo.jpg" "photo.ico" "blob:1" "0.0 KB"
            (Blob.mk "image/png" (File.payload Scenario.photo))))
    = "image/png"
  ∧ Endpoint.header "Content-Disposition"
      (Endpoint.POST Scenario.toBuffer Scenario.metadata
         (Return (Endpoint.mkFormData (Some Scenario.photo) (Some "ico") (Some "100"))))
    = Some (attachment "photo.jpg" "png").
Proof.
  apply (ico_result_is_named_ico Scenario.toBuffer Scenario.metadata 100 "blob:1"
           (new_state Image 0 Scenario.photo)).
  reflexivity.
Defined.

(** ** The archive *)

Lemma build_snoc rs r :
  Archive.build (rs ++ [r])
  = <[ConversionResult.convertedName r := ConversionResult.blob r]> (Archive.build rs).
Proof. unfold Archive.build. by rewrite foldl_app. Qed.

Lemma build_dom rs :
  dom (Archive.build rs)
  =@{gset string} list_to_set (ConversionResult.convertedName <$> rs).
Proof.
  induction rs as [|r rs IH] using rev_ind; [apply dom_empty_L|].
  rewrite build_snoc, dom_insert_L, IH, fmap_app, list_to_set_app_L.
  simpl. by rewrite union_empty_r_L, (comm_L (∪)).
Qed.

Lemma build_lookup rs name :
  Archive.build rs !! name
  = ConversionResult.blob
      <$> last (filter (λ r, ConversionResult.convertedName r = name) rs).
Proof.
  induction rs as [|r rs IH] using rev_ind; [done|].
  rewrite build_snoc, filter_app.
  destruct (decide (ConversionResult.convertedName r = name)) as [Heq|Hne].
  - rewrite Heq, lookup_insert_eq.
    rewrite (filter_cons_True _ r) by done. rewrite filter_nil.
    by rewrite last_snoc.
  - rewrite lookup_insert_ne by done.
    rewrite (filter_cons_False _ r) by done. rewrite filter_nil.
    by rewrite app_nil_r.
Qed.

(** C7, as the code has it.  The archive holds one entry per distinct
    [convertedName], with the blob of the last result of that name: a
    later result replaces an earlier one of the same name, and the names
    are not changed.  When the names of the results are pairwise distinct
    the archive has one entry per result. *)
Theorem archive_has_one_entry_per_name (rs : list ConversionResult.t) :
  dom (Archive.build rs)
  =@{gset string} list_to_set (ConversionResult.convertedName <$> rs)
  ∧ (∀ name,
       Archive.build rs !! name
       = ConversionResult.blob
           <$> last (filter (λ r, ConversionResult.convertedName r = name) rs))
  ∧ (NoDup (ConversionResult.convertedName <$> rs) →
       size (Archive.build rs) = length rs).
Proof.
  split; [apply build_dom|]. split; [apply build_lookup|].
  intros Hnd. rewrite <- size_dom, build_dom, size_list_to_set by done.
  by rewrite length_fmap.
Qed.

Lemma archive_has_one_entry_per_name_witness :
  size (Archive.build (conversionResults Scenario.final))
  = length (conversionResults Scenario.final).
Proof.
  apply (archive_has_one_entry_per_name (conversionResults Scenario.final)).
  refine (bool_decide_unpack _ _). vm_compute. exact I.
Defined.

(** Two pictures named [photo.jpg] and [photo.gif] converted to PNG are
    both named [photo.png]: the archive built from the two results has one
    entry, the second picture. *)
Lemma archive_collision_counterexample :
  length Scenario.collision = 2
  ∧ ConversionResult.convertedName <$> Scenario.collision = ["photo.png"; "photo.png"]
  ∧ size (Archive.build Scenario.collision) = 1
  ∧ Archive.build Scenario.collision !! "photo.png"
    = Some (Blob.mk "image/png" (File.payload Scenario.animation)).
Proof. repeat split; vm_compute; reflexivity. Qed.

(** ** The codec engine *)

(** Dispatching a window on a session without engine builds one engine
    per task. *)
Lemma dispatch_window_unloaded n s :
  AudioConverter.ffmpegRef s = None →
  AudioConverter.dispatch_window n s
  = (AudioConverter.mkSession None (AudioConverter.constructed s + n)
       (AudioConverter.ffmpegReady s),
     Some <$> seq (AudioConverter.constructed s) n).
Proof.
  revert s. induction n as [|n IH]; intros s Href.
  - destruct s as [ref k ready]. simpl in *. subst ref. by rewrite Nat.add_0_r.
  - cbn [AudioConverter.dispatch_window]. unfold AudioConverter.ensureFFmpeg_enter.
    rewrite Href, IH by done. simpl. f_equal. f_equal. lia.
Qed.

(** Once an engine is loaded every later use goes through it. *)
Lemma dispatch_window_loaded n s inst :
  AudioConverter.ffmpegRef s = Some inst →
  AudioConverter.dispatch_window n s = (s, replicate n None).
Proof.
  intros Href. induction n as [|n IH]; [done|]. simpl.
  unfold AudioConverter.ensureFFmpeg_enter. rewrite Href, IH. done.
Qed.

(** C9 on the code: the tasks of the first window of a session each
    build their own engine.  [ffmpegRef] is assigned after the load, so
    the guard of [ensureFFmpeg] does not hold back the second task of the
    window: with two tasks two engines are built and loaded, and the one
    whose load completes last stays in [ffmpegRef]. *)
Theorem first_window_builds_one_engine_per_task (n : nat) :
  AudioConverter.dispatch_window n AudioConverter.fresh
  = (AudioConverter.mkSession None n false, Some <$> seq 0 n)
  ∧ AudioConverter.constructed
      (AudioConverter.dispatch_window 2 AudioConverter.fresh).1 = 2
  ∧ AudioConverter.ffmpegRef
      (AudioConverter.loads_complete [0; 1]
         (AudioConverter.dispatch_window 2 AudioConverter.fresh).1) = Some 1
  ∧ AudioConverter.ffmpegRef
      (AudioConverter.loads_complete [1; 0]
         (AudioConverter.dispatch_window 2 AudioConverter.fresh).1) = Some 0.
Proof.
  split; [by rewrite dispatch_window_unloaded|]. by repeat split.
Qed.

(** A window of one task builds one engine, and the windows after it
    build none. *)
Example sequential_windows_share_the_engine :
  let s1 := (AudioConverter.dispatch_window 1 AudioConverter.fresh).1 in
  let s2 := AudioConverter.loads_complete [0] s1 in
  AudioConverter.constructed s1 = 1
  ∧ AudioConverter.dispatch_window 3 s2 = (s2, [None; None; None]).
Proof. by split. Qed.

(** ** Chunks *)

Lemma chunk_loop_lookup {A} (W : nat) (arr : list A) fuel i chunks k ch :
  chunk_loop W arr fuel i = Some chunks → chunks !! k = Some ch →
  ch = take W (drop (i + k * W) arr).
Proof.
  revert i chunks k. induction fuel as [|fuel IH]; intros i chunks k H Hk; [done|].
  simpl in H. destruct (Nat.ltb_spec i (length arr)).
  - destruct (chunk_loop W arr fuel (i + W)) as [rest|] eqn:E; [|done].
    simpl in H. injection H as <-. destruct k as [|k]; simpl in Hk.
    + injection Hk as <-. rewrite slice_window. do 2 f_equal. lia.
    + rewrite (IH _ _ _ E Hk). do 2 f_equal. lia.
  - by injection H as <-.
Qed.

Lemma chunk_loop_length {A} (W : nat) (arr : list A) fuel i chunks k :
  chunk_loop W arr fuel i = Some chunks →
  k < length chunks ↔ i + k * W < length arr.
Proof.
  revert i chunks k. induction fuel as [|fuel IH]; intros i chunks k H; [done|].
  simpl in H. destruct (Nat.ltb_spec i (length arr)).
  - destruct (chunk_loop W arr fuel (i + W)) as [rest|] eqn:E; [|done].
    simpl in H. injection H as <-. destruct k as [|k]; simpl; [lia|].
    rewrite <- Nat.succ_lt_mono, (IH _ _ k E). lia.
  - injection H as <-. simpl. lia.
Qed.

(** X1.  The chunking loop of [convertAll] cuts the array into consecutive
    windows: with a window of at least one the loop ends, chunk [k] is
    the slice of at most [W] elements that starts at [k * W], a chunk
    exists exactly for the [k] with [k * W] inside the array, no chunk is
    empty, and the chunks put together give back the array.  With a
    window of zero and something to convert the loop never ends. *)
Theorem chunks_are_consecutive_windows {A} (W : nat) (arr : list A) :
  (1 ≤ W →
   ∃ chunks, make_chunks W arr = Some chunks
     ∧ concat chunks = arr
     ∧ (∀ k, k < length chunks ↔ k * W < length arr)
     ∧ ∀ k ch, chunks !! k = Some ch →
         ch = take W (drop (k * W) arr) ∧ 1 ≤ length ch ≤ W)
  ∧ (W = 0 → arr ≠ [] → ∀ fuel, chunk_loop W arr fuel 0 = None).
Proof.
  split.
  - intros HW. destruct (make_chunks_spec W arr HW) as (chunks & Heq & Hcat & Hall).
    exists chunks. split; [done|]. split; [done|]. unfold make_chunks in Heq. split.
    + intros k. by rewrite (chunk_loop_length W arr _ 0 chunks k Heq).
    + intros k ch Hk. split.
      * by rewrite (chunk_loop_lookup W arr _ 0 chunks k ch Heq Hk).
      * by apply (Forall_lookup_1 _ _ _ _ Hall Hk).
  - intros -> Hne fuel. apply chunk_loop_zero. destruct arr; [done|simpl; lia].
Qed.

Lemma chunks_are_consecutive_windows_witness :
  (∃ chunks, make_chunks 2 [10; 20; 30] = Some chunks
     ∧ concat chunks = [10; 20; 30]
     ∧ (∀ k, k < length chunks ↔ k * 2 < length [10; 20; 30])
     ∧ ∀ k ch, chunks !! k = Some ch →
         ch = take 2 (drop (k * 2) [10; 20; 30]) ∧ 1 ≤ length ch ≤ 2)
  ∧ ∀ fuel, chunk_loop 0 [10] fuel 0 = None.
Proof.
  split.
  - apply (chunks_are_consecutive_windows 2 [10; 20; 30]). lia.
  - by apply (chunks_are_consecutive_windows 0 [10]).
Defined.

(** ** The states of a run *)

Lemma fmap_file_map_states next f prev :
  (∀ i s s', f i s = Some s' → FS.file s' = FS.file s) →
  FS.file <$> map_states next f prev = FS.file <$> prev.
Proof.
  intros Hf. apply list_eq. intros i.
  rewrite !list_lookup_fmap, lookup_map_states.
  destruct (prev !! i) as [s|]; [|done]. simpl. f_equal.
  destruct (f i s) as [s'|] eqn:E; [|done]. simpl. exact (Hf i s s' E).
Qed.

Lemma step_files pl convert st st' :
  step pl convert st st' →
  FS.file <$> fileStates st'.1 = FS.file <$> fileStates st.1.
Proof.
  destruct 1 as [c snapshot chunk chunks allResults indices
                |c snapshot ps chunks allResults k p Hk Hnone
                |c snapshot ps chunks allResults results Hall
                |c snapshot allResults]; simpl; try done.
  - apply fmap_file_map_states. intros i s s'.
    destruct (includes _ _); [|done]. by intros [= <-].
  - unfold settle. destruct (convert _ _); simpl.
    + rewrite fmap_file_map_states.
      2:{ intros i s s'. destruct (is_index _ _); [|done]. by intros [= <-]. }
      destruct pl; [done|]. simpl. apply fmap_file_map_states.
      intros i s s'. destruct (is_index _ _); [|done]. by intros [= <-].
    + apply fmap_file_map_states. intros i s s'.
      destruct (is_index _ _); [|done]. by intros [= <-].
Qed.

Lemma convertAll_enter_files pl W c st0 :
  convertAll_enter pl W c = Some st0 →
  FS.file <$> fileStates st0.1 = FS.file <$> fileStates c.
Proof.
  unfold convertAll_enter. case_match; [by intros [= <-]|].
  destruct (make_chunks _ _); simpl; [|done]. intros [= <-]. simpl.
  apply fmap_file_map_states. by intros i s s' [= <-].
Qed.

(** X3.  At every instant of a run, whatever the window and the order in which
    the conversions end, the batch holds the files it was started on, at
    the positions they had: the handler adds, removes and moves no file,
    in [selectedFiles] and in [fileStates] alike. *)
Theorem run_never_touches_the_files pl W convert (c : Component) st0 st :
  convertAll_enter pl W c = Some st0 →
  rtc (step pl convert) st0 st →
  selectedFiles st.1 = selectedFiles c
  ∧ FS.file <$> fileStates st.1 = FS.file <$> fileStates c.
Proof.
  intros Henter Hsteps. split.
  - rewrite (steps_selectedFiles _ _ _ _ Hsteps).
    by apply (convertAll_enter_selectedFiles pl W).
  - rewrite <- (convertAll_enter_files _ _ _ _ Henter).
    clear Henter. induction Hsteps as [|st st1 st2 Hstep _ IH]; [done|].
    rewrite IH. by eapply step_files.
Qed.

(** X4.  Between the entry of the handler and its return [isConverting] is
    set, and the return clears it: the flag that disables the buttons
    holds exactly while the run is under way. *)
Theorem isConverting_spans_the_run pl W convert (c : Component) st0 st :
  wf c → fileStates c ≠ [] → 1 ≤ W →
  convertAll_enter pl W c = Some st0 →
  rtc (step pl convert) st0 st →
  isConverting st.1 = match st.2 with Returned => false | _ => true end.
Proof.
  intros Hwf Hne HW Henter Hsteps.
  destruct (convertAll_enter_inv pl W convert c Hwf Hne HW)
    as (c' & chunks & Heq & _).
  rewrite Heq in Henter. injection Henter as <-.
  assert (Hkeep : ∀ st1 st2, rtc (step pl convert) st1 st2 →
            isConverting st1.1 = match st1.2 with Returned => false | _ => true end →
            isConverting st2.1 = match st2.2 with Returned => false | _ => true end).
  { clear. intros st1 st2 Hsteps.
    induction Hsteps as [|st1 st2 st3 Hstep _ IH]; [done|]. intros Hinit. apply IH.
    destruct Hstep as [c snapshot chunk chunks allResults indices
                      |c snapshot ps chunks allResults k p Hk Hnone
                      |c snapshot ps chunks allResults results Hall
                      |c snapshot allResults]; simpl in *; try done.
    unfold settle. destruct (convert _ _); simpl; [|done]. by destruct pl. }
  apply (Hkeep _ _ Hsteps). simpl.
  unfold convertAll_enter in Heq. case_match; [done|].
  destruct (make_chunks _ _); simpl in Heq; [|done]. by injection Heq as <- _.
Qed.

(** ** The history of a task *)

Lemma moves_forward_refl s : moves_forward s s.
Proof. unfold moves_forward. destruct (FS.status s) eqn:E; by rewrite ?E. Qed.

Lemma moves_forward_trans s1 s2 s3 :
  moves_forward s1 s2 → moves_forward s2 s3 → moves_forward s1 s3.
Proof.
  unfold moves_forward.
  destruct (FS.status s1) eqn:E1; [done| | |].
  - destruct (FS.status s2) eqn:E2; [done|done| |]; intros _ (E3 & _); congruence.
  - intros (E2 & R2 & Er2). rewrite E2. intros (E3 & R3 & Er3).
    repeat split; congruence.
  - intros (E2 & R2 & Er2). rewrite E2. intros (E3 & R3 & Er3).
    repeat split; congruence.
Qed.

Lemma moves_forward_ext s s1 s2 :
  FS.status s2 = FS.status s1 → FS.result s2 = FS.result s1 →
  FS.error s2 = FS.error s1 →
  moves_forward s s1 → moves_forward s s2.
Proof. unfold moves_forward. by intros -> -> ->. Qed.

Section RunHistory.

Variable pl : Pipeline.
Variable W : nat.
Variable convert : FPS → option nat → Completion ConversionResult.t.
Variable snap : list FPS.
Hypothesis snap_distinct : NoDup (FS.oid <$> snap).

Lemma expected_consistent d ps i s :
  expected pl convert snap d ps i s → consistent s.
Proof.
  assert (Hsettled : ∀ o, settled_as pl o s → consistent s).
  { intros [r|e] (Hst & Hres & Herr); unfold consistent;
      rewrite Hst, Hres, Herr; split; split; intros H;
      try done; try by inversion H. }
  assert (Huntouched : ∀ a, a = pending ∨ a = converting →
            untouched a s → consistent s).
  { intros a Ha (Hst & Hres & Herr). unfold consistent.
    rewrite Hst, Hres, Herr. split; split; intros H;
      try (by inversion H); destruct Ha; congruence. }
  unfold expected. case_decide.
  - intros (o & _ & Hs). eauto.
  - destruct (ps !! (i - d)) as [p|]; [|by apply Huntouched; left].
    destruct (task_settled p) as [r|]; [|by apply Huntouched; right].
    intros (o & _ & Hs). eauto.
Qed.

Lemma inv_consistent st :
  inv pl W convert snap st → Forall consistent (fileStates st.1).
Proof.
  intros Hinv. apply Forall_lookup. intros i s Hi.
  destruct st as [c [snapshot chunks allResults
                    |snapshot ps chunks allResults|]]; simpl in *.
  - destruct Hinv as (_ & k & (_ & _ & Hexp) & _). eapply expected_consistent; eauto.
  - destruct Hinv as (_ & k & (_ & _ & Hexp) & _). eapply expected_consistent; eauto.
  - destruct Hinv as ((_ & _ & Hexp) & _). eapply expected_consistent; eauto.
Qed.

Lemma step_moves_forward st st' :
  inv pl W convert snap st → step pl convert st st' →
  Forall2 moves_forward (fileStates st.1) (fileStates st'.1).
Proof.
  intros Hinv Hstep.
  destruct Hstep as [c snapshot chunk chunks allResults indices
                    |c snapshot ps chunks allResults j p Hj Hnone
                    |c snapshot ps chunks allResults results Hall
                    |c snapshot allResults]; simpl in *.
  - destruct Hinv as (-> & k & (_ & _ & Hexp) & [fuel Hfuel] & _).
    apply (chunk_loop_cons W snap) in Hfuel as (_ & -> & _).
    apply Forall2_same_length_lookup. split; [by rewrite length_map_states|].
    intros i s s' Hs Hs'. rewrite lookup_map_states, Hs in Hs'.
    injection Hs' as <-. subst indices.
    destruct (includes _ i) eqn:Hinc; simpl; [|apply moves_forward_refl].
    apply (includes_window W snap snap_distinct) in Hinc.
    specialize (Hexp i s Hs). unfold expected in Hexp.
    rewrite decide_False, lookup_nil in Hexp by lia.
    destruct Hexp as (Hst & _). unfold moves_forward. by rewrite Hst.
  - destruct Hinv as (-> & k & (_ & _ & Hexp) & [_ Hp] & _).
    destruct (Hp j p Hj) as (_ & Hidx & _).
    pose proof (lookup_lt_Some _ _ _ Hj) as Hjlt.
    assert (Hconv : ∀ s, fileStates c !! (k * W + j) = Some s →
              FS.status s = converting).
    { intros s Hs. specialize (Hexp _ s Hs). unfold expected in Hexp.
      rewrite decide_False in Hexp by lia.
      replace (k * W + j - k * W) with j in Hexp by lia.
      rewrite Hj, Hnone in Hexp. by destruct Hexp. }
    apply Forall2_same_length_lookup. split.
    { unfold settle. rewrite Hidx. destruct (convert _ _); simpl;
        [destruct pl; simpl|]; by rewrite ?length_map_states. }
    intros i s s' Hs Hs'. unfold settle in Hs'. rewrite Hidx in Hs'.
    assert (Hat : ∀ (g : FPS → FPS) o,
              FS.status (g s) ≠ pending →
              moves_forward s
                (if decide (i = k * W + j) then FS.at_oid o (g s) else s)).
    { intros g o Hg. case_decide as Hi; [|apply moves_forward_refl].
      subst i. unfold moves_forward. by rewrite (Hconv s Hs). }
    destruct (convert _ _) as [res|e]; cbn [fst] in Hs'.
    + destruct pl; rewrite !lookup_update_at, Hs in Hs'; injection Hs' as <-.
      * by apply (Hat (completed_state Image res)).
      * case_decide; [|apply moves_forward_refl]. simpl.
        subst i. unfold moves_forward. by rewrite (Hconv s Hs).
    + rewrite lookup_update_at, Hs in Hs'. injection Hs' as <-.
      by apply (Hat (error_state pl e)).
  - apply Forall2_same_length_lookup. split; [done|].
    intros i s s' Hs Hs'. rewrite Hs in Hs'. injection Hs' as <-.
    apply moves_forward_refl.
  - apply Forall2_same_length_lookup. split; [done|].
    intros i s s' Hs Hs'. rewrite Hs in Hs'. injection Hs' as <-.
    apply moves_forward_refl.
Qed.

Lemma steps_move_forward st st' :
  inv pl W convert snap st → rtc (step pl convert) st st' →
  Forall2 moves_forward (fileStates st.1) (fileStates st'.1).
Proof.
  intros Hinv Hsteps. induction Hsteps as [st|st st1 st2 Hstep _ IH].
  - apply Forall2_same_length_lookup. split; [done|].
    intros i s s' Hs Hs'. rewrite Hs in Hs'. injection Hs' as <-.
    apply moves_forward_refl.
  - pose proof (step_moves_forward _ _ Hinv Hstep) as H1.
    specialize (IH (inv_step pl W convert snap snap_distinct _ _ Hstep Hinv)).
    apply Forall2_same_length_lookup. split.
    { rewrite (Forall2_length _ _ _ H1). apply (Forall2_length _ _ _ IH). }
    intros i s s' Hs Hs'.
    destruct (Forall2_lookup_l _ _ _ _ _ H1 Hs) as (s1 & Hs1 & H01).
    destruct (Forall2_lookup_l _ _ _ _ _ IH Hs1) as (s2 & Hs2 & H12).
    rewrite Hs' in Hs2. injection Hs2 as <-. by eapply moves_forward_trans.
Qed.

End RunHistory.

(** X5.  Between any two instants of a run, in whatever order the conversions
    end, the status of every task has only moved forward: a [converting]
    task is not [pending] again, and a task that is [completed] or [error]
    keeps its status, its result and its error message until the run
    returns. *)
Theorem a_settled_task_is_never_touched_again
    pl W convert (c : Component) st0 st st' :
  wf c → fileStates c ≠ [] → 1 ≤ W →
  convertAll_enter pl W c = Some st0 →
  rtc (step pl convert) st0 st →
  rtc (step pl convert) st st' →
  Forall2 moves_forward (fileStates st.1) (fileStates st'.1).
Proof.
  intros Hwf Hne HW Henter Hsteps Hmore.
  eapply (steps_move_forward pl W convert (fileStates c)); [by destruct Hwf| |done].
  by eapply run_inv.
Qed.

(** X6.  At every instant of a run, from the entry of the handler to its
    return, a state object holds a result exactly when its status is
    [completed] and an error message exactly when its status is [error]:
    what a previous run left on the object does not show through. *)
Theorem result_and_error_follow_the_status pl W convert (c : Component) st0 st :
  wf c → 1 ≤ W →
  convertAll_enter pl W c = Some st0 →
  rtc (step pl convert) st0 st →
  fileStates c ≠ [] →
  Forall consistent (fileStates st.1).
Proof.
  intros Hwf HW Henter Hsteps Hne.
  eapply (inv_consistent pl W convert (fileStates c)). by eapply run_inv.
Qed.

(** X7.  Every execution of a run is finite: under no order of settling does
    the handler make more than [3 N + 1] steps on a batch of [N] files
    (one dispatch and one join per window, one settling per task, and the
    return). *)
Theorem a_run_makes_at_most_3N_plus_1_steps
    pl W convert (c : Component) st0 st n :
  wf c → 1 ≤ W →
  convertAll_enter pl W c = Some st0 →
  nsteps (step pl convert) n st0 st →
  n ≤ 3 * length (fileStates c) + 1.
Proof.
  intros Hwf HW Henter Hsteps.
  apply nsteps_remaining in Hsteps.
  destruct (decide (fileStates c = [])) as [Hnil|Hne].
  { rewrite convertAll_enter_empty in Henter by done.
    injection Henter as <-. unfold remaining in Hsteps. simpl in Hsteps. lia. }
  destruct (make_chunks_spec W (fileStates c) HW) as (chunks & Hchunks & Hcat & Hall).
  unfold convertAll_enter in Henter. destruct Hwf as [_ _ Hfiles].
  rewrite <- Hfiles, length_fmap in Henter.
  assert (length (fileStates c) ≠ 0) as Hlen by (by destruct (fileStates c)).
  replace (match pl with Image | Audio => (length (fileStates c) =? 0) end)
    with false in Henter by (destruct pl; symmetry; by apply Nat.eqb_neq).
  simpl in Henter. rewrite Hchunks in Henter. injection Henter as <-.
  unfold remaining in Hsteps. simpl in Hsteps.
  assert (Hback : backlog chunks ≤ 3 * length (concat chunks)).
  { clear -Hall. induction Hall as [|ch chunks Hch _ IH]; [done|].
    change (backlog (ch :: chunks)) with (2 + length ch + backlog chunks).
    simpl. rewrite length_app. lia. }
  rewrite Hcat in Hback. lia.
Qed.

Lemma settled_results_count pl os (l : list FPS) :
  Forall2 (settled_as pl) os l →
  length (omap resolved_value os) = count_status completed l.
Proof.
  unfold count_status. induction 1 as [|o s os l Hs _ IH]; [done|].
  destruct o as [r|e]; destruct Hs as (Hst & _); csimpl.
  - rewrite filter_cons_True by done. simpl. by rewrite IH.
  - rewrite filter_cons_False by congruence. done.
Qed.

Lemma size_list_to_set_le (l : list string) :
  size (list_to_set l : gset string) ≤ length l.
Proof.
  induction l as [|x l IH]; [done|]. simpl.
  rewrite size_union_alt, size_singleton.
  assert (Hle : size (list_to_set l ∖ {[x]} : gset string)
                ≤ size (list_to_set l : gset string)).
  { apply subseteq_size, subseteq_difference_l. done. }
  lia.
Qed.

(** X8.  When a run has returned, [conversionResults] holds as many results
    as there are [completed] tasks, and [downloadAll] follows from it: it
    does nothing when no task completed, and otherwise offers one
    archive, under the fixed name of the component, whose entries are
    named by the converted names of the results and number at most the
    completed tasks. *)
Theorem download_follows_the_completed_tasks
    pl W convert (c : Component) st0 cf :
  wf c → fileStates c ≠ [] → 1 ≤ W →
  convertAll_enter pl W c = Some st0 →
  rtc (step pl convert) st0 (cf, Returned) →
  length (conversionResults cf) = count_status completed (fileStates cf)
  ∧ (count_status completed (fileStates cf) = 0 →
       Archive.downloadAll pl cf = None)
  ∧ (0 < count_status completed (fileStates cf) →
       ∃ zip, Archive.downloadAll pl cf = Some (Archive.archive_name pl, zip)
              ∧ 1 ≤ size zip ≤ count_status completed (fileStates cf)
              ∧ ∀ name, is_Some (zip !! name)
                  ↔ name ∈ ConversionResult.convertedName <$> conversionResults cf).
Proof.
  intros Hwf Hne HW Henter Hcf.
  destruct (run_final pl W convert c st0 cf Hwf Hne HW Henter Hcf)
    as (_ & Hlen & Hres & _ & Hfin).
  assert (Hcount : length (conversionResults cf)
                   = count_status completed (fileStates cf)).
  { rewrite Hres. apply (settled_results_count pl).
    apply Forall2_same_length_lookup. split.
    { unfold outcomes. by rewrite length_imap. }
    intros i o s Ho Hs. destruct (Hfin i s Hs) as (s0 & Hs0 & Hset).
    unfold outcomes in Ho. rewrite list_lookup_imap, Hs0 in Ho.
    by injection Ho as <-. }
  split; [done|]. rewrite <- Hcount. unfold Archive.downloadAll. split.
  - intros ->. done.
  - intros Hpos. destruct (Nat.eqb_spec (length (conversionResults cf)) 0); [lia|].
    eexists. split; [done|].
    assert (Hdom : ∀ name, is_Some (Archive.build (conversionResults cf) !! name)
              ↔ name ∈ ConversionResult.convertedName <$> conversionResults cf).
    { intros name. rewrite <- elem_of_dom, build_dom. apply elem_of_list_to_set. }
    split; [|done]. rewrite <- size_dom, build_dom. split.
    + destruct (conversionResults cf) as [|r rs]; [simpl in Hpos; lia|].
      simpl. rewrite size_union_alt, size_singleton. lia.
    + etrans; [apply size_list_to_set_le|]. by rewrite length_fmap.
Qed.

(** ** The three-image batch, continued *)

Lemma scenario_midway :
  rtc (step Image Scenario.convert) Scenario.entered Scenario.midway.
Proof. apply run_steps. Qed.

Lemma scenario_midway_returned :
  rtc (step Image Scenario.convert) Scenario.midway (Scenario.final, Returned).
Proof.
  change (Scenario.final, Returned)
    with (run Image Scenario.convert 6 Scenario.midway).
  apply run_steps.
Qed.

Lemma scenario_reachable : reachable Image Scenario.final.
Proof.
  eapply (reachable_run Image Scenario.batch 2 Scenario.convert Scenario.entered).
  - apply reachable_onDrop, reachable_initial.
  - lia.
  - reflexivity.
  - exact scenario_returned.
Qed.

Lemma reachable_wf_witness : wf Scenario.final.
Proof. apply (reachable_wf Image Scenario.final). exact scenario_reachable. Defined.

Lemma run_never_touches_the_files_witness :
  selectedFiles Scenario.midway.1 = selectedFiles Scenario.batch
  ∧ FS.file <$> fileStates Scenario.midway.1
    = FS.file <$> fileStates Scenario.batch.
Proof.
  apply (run_never_touches_the_files
           Image 2 Scenario.convert Scenario.batch Scenario.entered Scenario.midway).
  - reflexivity.
  - exact scenario_midway.
Defined.

Lemma isConverting_spans_the_run_witness :
  isConverting Scenario.midway.1
  = match Scenario.midway.2 with Returned => false | _ => true end.
Proof.
  apply (isConverting_spans_the_run
           Image 2 Scenario.convert Scenario.batch Scenario.entered Scenario.midway).
  - exact scenario_wf.
  - discriminate.
  - lia.
  - reflexivity.
  - exact scenario_midway.
Defined.

Lemma a_settled_task_is_never_touched_again_witness :
  Forall2 moves_forward (fileStates Scenario.midway.1) (fileStates Scenario.final).
Proof.
  apply (a_settled_task_is_never_touched_again
           Image 2 Scenario.convert Scenario.batch Scenario.entered
           Scenario.midway (Scenario.final, Returned)).
  - exact scenario_wf.
  - discriminate.
  - lia.
  - reflexivity.
  - exact scenario_midway.
  - exact scenario_midway_returned.
Defined.

Lemma result_and_error_follow_the_status_witness :
  Forall consistent (fileStates Scenario.midway.1).
Proof.
  apply (result_and_error_follow_the_status
           Image 2 Scenario.convert Scenario.batch Scenario.entered Scenario.midway).
  - exact scenario_wf.
  - lia.
  - reflexivity.
  - exact scenario_midway.
  - discriminate.
Defined.

Lemma scenario_eight_steps :
  nsteps (step Image Scenario.convert) 8 Scenario.entered (Scenario.final, Returned).
Proof.
  do 8 (eapply nsteps_l; [apply next_step; reflexivity|]).
  apply nsteps_O.
Qed.

Lemma a_run_makes_at_most_3N_plus_1_steps_witness :
  8 ≤ 3 * length (fileStates Scenario.batch) + 1.
Proof.
  apply (a_run_makes_at_most_3N_plus_1_steps
           Image 2 Scenario.convert Scenario.batch Scenario.entered
           (Scenario.final, Returned) 8).
  - exact scenario_wf.
  - lia.
  - reflexivity.
  - exact scenario_eight_steps.
Defined.

Lemma download_follows_the_completed_tasks_witness :
  length (conversionResults Scenario.final)
  = count_status completed (fileStates Scenario.final)
  ∧ (count_status completed (fileStates Scenario.final) = 0 →
       Archive.downloadAll Image Scenario.final = None)
  ∧ (0 < count_status completed (fileStates Scenario.final) →
       ∃ zip, Archive.downloadAll Image Scenario.final
              = Some (Archive.archive_name Image, zip)
              ∧ 1 ≤ size zip ≤ count_status completed (fileStates Scenario.final)
              ∧ ∀ name, is_Some (zip !! name)
                  ↔ name ∈ ConversionResult.convertedName
                             <$> conversionResults Scenario.final).
Proof.
  apply (download_follows_the_completed_tasks
           Image 2 Scenario.convert Scenario.batch Scenario.entered Scenario.final).
  - exact scenario_wf.
  - discriminate.
  - lia.
  - reflexivity.
  - exact scenario_returned.
Defined.


(** ** Removing files *)

Lemma lookup_remove_at {A} (index i : nat) (l : list A) :
  remove_at index l !! i = l !! (if decide (i < index) then i else S i).
Proof.
  unfold remove_at. destruct (decide (index ≤ length l)) as [Hle|Hgt].
  - case_decide.
    + rewrite lookup_app_l by (rewrite length_take; lia).
      by rewrite lookup_take_lt.
    + rewrite lookup_app_r by (rewrite length_take; lia).
      rewrite length_take, lookup_drop. f_equal. lia.
  - rewrite take_ge, drop_ge by lia. rewrite app_nil_r. case_decide; [done|].
    rewrite !lookup_ge_None_2 by lia. done.
Qed.

(** X10.  [removeFile] drops the same position from [selectedFiles] and from
    [fileStates]: the entries before it stay where they are, the entries
    behind it move up by one, and nothing else changes; in particular the
    results of an earlier run stay in [conversionResults], the result of
    the removed file included.  An index outside the lists leaves the
    component as it is. *)
Theorem removeFile_drops_one_position index (c : Component) :
  wf c →
  (∀ i, fileStates (removeFile index c) !! i
        = fileStates c !! (if decide (i < index) then i else S i))
  ∧ (∀ i, selectedFiles (removeFile index c) !! i
          = FS.file <$> fileStates (removeFile index c) !! i)
  ∧ conversionResults (removeFile index c) = conversionResults c
  ∧ (index < length (fileStates c) →
       S (length (fileStates (removeFile index c))) = length (fileStates c))
  ∧ (length (fileStates c) ≤ index → removeFile index c = c).
Proof.
  intros Hwf. pose proof (wf_removeFile index c Hwf) as [_ _ Hfiles].
  split; [intros i; apply lookup_remove_at|]. split.
  { intros i. by rewrite <- Hfiles, list_lookup_fmap. }
  split; [done|]. split.
  - intros Hlt. simpl. unfold remove_at.
    rewrite length_app, length_take, length_drop. lia.
  - intros Hge. destruct Hwf as [_ _ Hsel]. destruct c as [sel sts rs b n].
    simpl in *. unfold removeFile, remove_at. simpl.
    assert (length sel = length sts) as Hlen by (by rewrite <- Hsel, length_fmap).
    rewrite !take_ge, !drop_ge, !app_nil_r by lia. done.
Qed.

Lemma removeFile_drops_one_position_witness :
  (∀ i, fileStates (removeFile 1 Scenario.batch) !! i
        = fileStates Scenario.batch !! (if decide (i < 1) then i else S i))
  ∧ (∀ i, selectedFiles (removeFile 1 Scenario.batch) !! i
          = FS.file <$> fileStates (removeFile 1 Scenario.batch) !! i)
  ∧ conversionResults (removeFile 1 Scenario.batch) = conversionResults Scenario.batch
  ∧ (1 < length (fileStates Scenario.batch) →
       S (length (fileStates (removeFile 1 Scenario.batch)))
       = length (fileStates Scenario.batch))
  ∧ (length (fileStates Scenario.batch) ≤ 1 →
       removeFile 1 Scenario.batch = Scenario.batch).
Proof. apply (removeFile_drops_one_position 1 Scenario.batch). exact scenario_wf. Defined.

(** X11.  Dropping one accepted file and removing the entry it was given puts
    the two lists back as they were. *)
Theorem removing_the_dropped_file_restores_the_lists pl f (c : Component) :
  wf c → accepted pl f = true →
  selectedFiles (removeFile (length (fileStates c)) (onDrop pl [f] c))
  = selectedFiles c
  ∧ fileStates (removeFile (length (fileStates c)) (onDrop pl [f] c))
    = fileStates c.
Proof.
  intros [_ _ Hsel] Hacc. unfold onDrop.
  rewrite filter_cons_True, filter_nil by done. simpl. unfold remove_at.
  assert (length (selectedFiles c) = length (fileStates c)) as Hlen
    by (by rewrite <- Hsel, length_fmap).
  rewrite <- Hlen at 1 2.
  rewrite !take_app_length, !drop_app_ge by lia.
  rewrite Hlen, !drop_ge, !app_nil_r by (simpl; lia). done.
Qed.

Lemma removing_the_dropped_file_restores_the_lists_witness :
  selectedFiles (removeFile (length (fileStates Scenario.batch))
                   (onDrop Image [Scenario.animation] Scenario.batch))
  = selectedFiles Scenario.batch
  ∧ fileStates (removeFile (length (fileStates Scenario.batch))
                  (onDrop Image [Scenario.animation] Scenario.batch))
    = fileStates Scenario.batch.
Proof.
  apply (removing_the_dropped_file_restores_the_lists
           Image Scenario.animation Scenario.batch).
  - exact scenario_wf.
  - reflexivity.
Defined.

(** ** The sequential component *)

Section SequentialProofs.

Import SequentialImageConverter.

Variable targetFormat : string.
Variable quality : N.
Variable fetch : nat → Endpoint.FormData → Completion Endpoint.Response.
Variable downloadUrl : nat → string.

Local Abbreviation turn := (attempt targetFormat quality fetch downloadUrl).
Local Abbreviation loop := (convert_loop targetFormat quality fetch downloadUrl).
Local Abbreviation form := (formData_of targetFormat quality).

Lemma convert_loop_cons i file rest results sent :
  loop i (file :: rest) results sent
  = match turn i file with
    | Return r => loop (S i) rest (results ++ [r]) (sent ++ [form file])
    | Throw e => (Throw e, (sent ++ [form file])%list)
    end.
Proof.
  simpl. unfold attempt. destruct (fetch i _) as [response|e]; [|done].
  by destruct (ImageConverter.ok response).
Qed.

Lemma convert_loop_fulfilled files i results sent :
  Forall fulfilled (imap (λ j, turn (i + j)) files) →
  loop i files results sent
  = (Return (results ++ omap resolved_value (imap (λ j, turn (i + j)) files))%list,
     (sent ++ (form <$> files))%list).
Proof.
  revert i results sent. induction files as [|file rest IH]; intros i results sent Hall.
  { simpl. by rewrite !app_nil_r. }
  rewrite convert_loop_cons. rewrite imap_cons in Hall |- *.
  apply Forall_cons in Hall as [Hhd Htl].
  replace (i + 0) with i in * by lia.
  destruct (turn i file) as [r|e]; [|by destruct Hhd].
  assert (Hext : imap ((λ j, turn (i + j)) ∘ S) rest = imap (λ j, turn (S i + j)) rest).
  { apply imap_ext. intros j x _. simpl. f_equal. lia. }
  rewrite Hext in Htl |- *. rewrite IH by done. csimpl.
  by rewrite <- !app_assoc.
Qed.

Lemma convert_loop_rejected files i results sent k e :
  imap (λ j, turn (i + j)) files !! k = Some (Throw e) →
  Forall fulfilled (take k (imap (λ j, turn (i + j)) files)) →
  loop i files results sent = (Throw e, (sent ++ (form <$> take (S k) files))%list).
Proof.
  revert i results sent k. induction files as [|file rest IH];
    intros i results sent k Hk Hall; [done|].
  rewrite convert_loop_cons. rewrite imap_cons in Hk, Hall.
  replace (i + 0) with i in * by lia.
  assert (Hext : imap ((λ j, turn (i + j)) ∘ S) rest = imap (λ j, turn (S i + j)) rest).
  { apply imap_ext. intros j x _. simpl. f_equal. lia. }
  rewrite Hext in Hk, Hall. destruct k as [|k]; simpl in Hk, Hall.
  - by injection Hk as ->.
  - apply Forall_cons in Hall as [Hhd Htl].
    destruct (turn i file) as [r|e']; [|by destruct Hhd].
    rewrite (IH (S i) _ _ k Hk Htl). simpl. by rewrite <- app_assoc.
Qed.

(** Either every file fails to be the first failure, or one is. *)
Lemma first_rejected (os : list (Completion ConversionResult.t)) :
  Forall fulfilled os
  ∨ ∃ k e, os !! k = Some (Throw e) ∧ Forall fulfilled (take k os).
Proof.
  induction os as [|o os IH]; [by left|].
  destruct o as [r|e].
  - destruct IH as [Hall|(k & e & Hk & Hall)].
    + left. constructor; [by eexists|done].
    + right. exists (S k), e. split; [done|]. simpl.
      constructor; [by eexists|done].
  - right. exists 0, e. split; [done|]. by rewrite take_0.
Qed.

Lemma convertImages_outcome (st : State) :
  selectedFiles st ≠ [] →
  let outs := imap turn (selectedFiles st) in
  (Forall fulfilled outs
   ∧ convertImages targetFormat quality fetch downloadUrl st
     = mkOutcome (mkState (selectedFiles st) (omap resolved_value outs) false)
                 false (form <$> selectedFiles st))
  ∨ ∃ k e, outs !! k = Some (Throw e) ∧ Forall fulfilled (take k outs)
      ∧ convertImages targetFormat quality fetch downloadUrl st
        = mkOutcome (mkState (selectedFiles st) (conversionResults st) false)
                    true (form <$> take (S k) (selectedFiles st)).
Proof.
  intros Hne outs. unfold convertImages.
  destruct (Nat.eqb_spec (length (selectedFiles st)) 0) as [Hz|_].
  { by destruct (selectedFiles st). }
  assert (Hext : outs = imap (λ j, turn (0 + j)) (selectedFiles st)) by done.
  destruct (first_rejected outs) as [Hall|(k & e & Hk & Hall)].
  - left. split; [done|]. rewrite Hext in Hall.
    rewrite (convert_loop_fulfilled _ 0 [] [] Hall). by rewrite <- Hext.
  - right. exists k, e. split; [done|]. split; [done|]. rewrite Hext in Hk, Hall.
    by rewrite (convert_loop_rejected _ 0 [] [] k e Hk Hall).
Qed.

End SequentialProofs.

(** X12.  The sequential [convertImages] is all or nothing.  On an empty
    selection it does nothing.  Otherwise it sends the files one by one
    and stops at the first one that fails: when every file converts, the
    results of all of them replace [conversionResults], in the order of
    the files; when the file at position [k] is the first to fail, the
    files behind it are never sent, the results already obtained in this
    call are dropped, [conversionResults] keeps what it held before the
    call, and the alert is raised.  In both cases [isConverting] is
    cleared and the selection is left as it was. *)
Theorem sequential_conversion_is_all_or_nothing
    targetFormat quality fetch downloadUrl (st : SequentialImageConverter.State) :
  (SequentialImageConverter.selectedFiles st = [] →
   SequentialImageConverter.convertImages targetFormat quality fetch downloadUrl st
   = SequentialImageConverter.mkOutcome st false [])
  ∧ (SequentialImageConverter.selectedFiles st ≠ [] →
     ∃ out outs,
       out = SequentialImageConverter.convertImages
               targetFormat quality fetch downloadUrl st
       ∧ outs = imap (attempt targetFormat quality fetch downloadUrl)
                     (SequentialImageConverter.selectedFiles st)
       ∧ SequentialImageConverter.isConverting
           (SequentialImageConverter.state out) = false
       ∧ SequentialImageConverter.selectedFiles
           (SequentialImageConverter.state out)
         = SequentialImageConverter.selectedFiles st
       ∧ (Forall fulfilled outs →
            SequentialImageConverter.conversionResults
              (SequentialImageConverter.state out)
            = omap resolved_value outs
            ∧ SequentialImageConverter.alerted out = false
            ∧ SequentialImageConverter.requests out
              = SequentialImageConverter.formData_of targetFormat quality
                  <$> SequentialImageConverter.selectedFiles st)
       ∧ (∀ k e, outs !! k = Some (Throw e) → Forall fulfilled (take k outs) →
            SequentialImageConverter.conversionResults
              (SequentialImageConverter.state out)
            = SequentialImageConverter.conversionResults st
            ∧ SequentialImageConverter.alerted out = true
            ∧ SequentialImageConverter.requests out
              = SequentialImageConverter.formData_of targetFormat quality
                  <$> take (S k) (SequentialImageConverter.selectedFiles st))).
Proof.
  split.
  { intros Hnil. unfold SequentialImageConverter.convertImages. by rewrite Hnil. }
  intros Hne. eexists _, _. split; [done|]. split; [done|].
  pose proof (convertImages_outcome targetFormat quality fetch downloadUrl st Hne)
    as Hout. cbv zeta in Hout. revert Hout.
  generalize (SequentialImageConverter.convertImages
                targetFormat quality fetch downloadUrl st).
  generalize (imap (attempt targetFormat quality fetch downloadUrl)
                (SequentialImageConverter.selectedFiles st)).
  intros outs out Hout.
  assert (Hclash : ∀ k e, outs !! k = Some (Throw e) → Forall fulfilled outs → False).
  { intros k e Hk Hall. apply (Forall_lookup_1 _ _ _ _ Hall) in Hk. by destruct Hk. }
  destruct Hout as [[Hall ->]|(k0 & e0 & Hk0 & Hall0 & ->)]; simpl.
  - split; [done|]. split; [done|]. split; [done|].
    intros k e Hk _. destruct (Hclash k e Hk Hall).
  - split; [done|]. split; [done|]. split.
    { intros Hall. destruct (Hclash k0 e0 Hk0 Hall). }
    intros k e Hk Hall.
    assert (k = k0) as ->; [|done].
    destruct (Nat.lt_total k k0) as [Hlt|[Heq|Hgt]]; [|done|].
    + exfalso. apply (Hclash k e); [done|].
      assert (Htk : take k0 outs !! k = Some (Throw e))
        by (by rewrite lookup_take_lt).
      apply (Forall_lookup_1 _ _ _ _ Hall0) in Htk. by destruct Htk.
    + exfalso.
      assert (Htk : take k outs !! k0 = Some (Throw e0))
        by (by rewrite lookup_take_lt).
      apply (Forall_lookup_1 _ _ _ _ Hall) in Htk. by destruct Htk.
Qed.


(** ** The quality, from the slider to the encoder *)








(** ** Stems *)









Lemma split_head_app c a b :
  occurs c a = false → JS.split_head c (a ++ String c b) = a.
Proof.
  induction a as [|d a IH]; simpl.
  - by rewrite Ascii.eqb_refl.
  - intros [-> Ha]%orb_false_elim. by rewrite IH.
Qed.



(** ** The format switch *)

Lemma lower_ascii_idemp c : JS.lower_ascii (JS.lower_ascii c) = JS.lower_ascii c.
Proof. by destruct c as [[] [] [] [] [] [] [] []]. Qed.

Lemma toLowerCase_idemp s : JS.toLowerCase (JS.toLowerCase s) = JS.toLowerCase s.
Proof.
  induction s as [|c s IH]; [done|]. simpl. by rewrite lower_ascii_idemp, IH.
Qed.

(** X16.  The [switch] of the endpoint compares the format name without regard
    to letter case, and its two versions have a case for the same names,
    among them every format the image component offers.  The format the
    endpoint reports is the name as the request spelled it, except where
    it substitutes PNG: then the encoder is the PNG encoder and the
    format reported is [png]. *)
Theorem the_switch_ignores_letter_case targetFormat quality rs :
  encoding <$> Endpoint.select_encoder (JS.toLowerCase targetFormat) quality
  = encoding <$> Endpoint.select_encoder targetFormat quality
  ∧ encoding <$> Endpoint.select_encoder_optimized
                   (JS.toLowerCase targetFormat) quality rs
    = encoding <$> Endpoint.select_encoder_optimized targetFormat quality rs
  ∧ (is_Some (Endpoint.select_encoder targetFormat quality)
     ↔ is_Some (Endpoint.select_encoder_optimized targetFormat quality rs))
  ∧ (∀ rs' enc actualFormat,
       Endpoint.select_encoder targetFormat quality = Some (rs', enc, actualFormat)
       ∨ Endpoint.select_encoder_optimized targetFormat quality rs
         = Some (rs', enc, actualFormat) →
       actualFormat = targetFormat
       ∨ (actualFormat = "png" ∧ enc = Endpoint.png))
  ∧ Forall (λ f, is_Some (Endpoint.select_encoder_optimized f quality rs))
           SUPPORTED_FORMATS.
Proof.
  split; [|split; [|split; [|split]]].
  - unfold Endpoint.select_encoder. rewrite toLowerCase_idemp.
    repeat (case_match; [done|]). done.
  - unfold Endpoint.select_encoder_optimized. rewrite toLowerCase_idemp.
    repeat (case_match; [done|]). done.
  - rewrite <- !not_eq_None_Some.
    rewrite <- (select_encoder_supported targetFormat quality).
    by rewrite <- (select_encoder_optimized_supported targetFormat quality rs).
  - intros rs' enc actualFormat [H|H]; revert H;
      unfold Endpoint.select_encoder, Endpoint.select_encoder_optimized;
      repeat (case_match; [intros [= <- <- <-]; auto|]); done.
  - unfold SUPPORTED_FORMATS. repeat constructor; by eexists.
Qed.

Lemma the_switch_ignores_letter_case_witness :
  encoding <$> Endpoint.select_encoder (JS.toLowerCase "ICO") 90
  = encoding <$> Endpoint.select_encoder "ICO" 90
  ∧ ("png" = "ICO" ∨ ("png" = "png" ∧ Endpoint.png = Endpoint.png)).
Proof.
  destruct (the_switch_ignores_letter_case "ICO" 90 Endpoint.NoResize)
    as (H1 & _ & _ & H4 & _).
  split; [exact H1|]. apply (H4 (Endpoint.Contain 32 32)). by left.
Defined.

(** ** The image component against the endpoint *)




(** ** The codec engine, continued *)

Lemma loads_complete_last order s :
  order ≠ [] →
  AudioConverter.loads_complete order s
  = AudioConverter.mkSession (last order) (AudioConverter.constructed s) true.
Proof.
  intros Hne. destruct order as [|inst order] using rev_ind; [done|].
  unfold AudioConverter.loads_complete. rewrite foldl_app, last_snoc. simpl.
  unfold AudioConverter.ensureFFmpeg_resume. f_equal.
  clear. generalize dependent s. induction order as [|i order IH]; intros s; [done|].
  simpl. by rewrite IH.
Qed.

(** X18.  The engines of a session are built in its first window only.  On a
    session without an engine a window of [n] tasks builds [n] engines;
    once their loads have completed, in whatever order, [ffmpegRef] holds
    the engine whose load completed last, and no later window, in this run
    or another, builds or loads anything: every later use returns at the
    guard of [ensureFFmpeg]. *)
Theorem engines_are_built_in_the_first_window_only (n m : nat) (order : list nat) :
  1 ≤ n → order ≡ₚ seq 0 n →
  AudioConverter.constructed
    (AudioConverter.loads_complete order
       (AudioConverter.dispatch_window n AudioConverter.fresh).1) = n
  ∧ AudioConverter.ffmpegRef
      (AudioConverter.loads_complete order
         (AudioConverter.dispatch_window n AudioConverter.fresh).1) = last order
  ∧ is_Some (last order)
  ∧ AudioConverter.dispatch_window m
      (AudioConverter.loads_complete order
         (AudioConverter.dispatch_window n AudioConverter.fresh).1)
    = (AudioConverter.loads_complete order
         (AudioConverter.dispatch_window n AudioConverter.fresh).1,
       replicate m None).
Proof.
  intros Hn Hperm.
  assert (Hne : order ≠ []).
  { intros ->. apply Permutation_length in Hperm. rewrite length_seq in Hperm.
    simpl in Hperm. lia. }
  rewrite dispatch_window_unloaded by done. simpl.
  rewrite loads_complete_last by done. simpl.
  assert (Hlast : is_Some (last order)).
  { destruct order as [|i order] using rev_ind; [done|]. rewrite last_snoc. eauto. }
  split; [lia|]. split; [done|]. split; [done|].
  destruct Hlast as [inst Hinst]. by apply (dispatch_window_loaded m _ inst).
Qed.

Lemma engines_are_built_in_the_first_window_only_witness :
  AudioConverter.constructed
    (AudioConverter.loads_complete [2; 0; 1]
       (AudioConverter.dispatch_window 3 AudioConverter.fresh).1) = 3
  ∧ AudioConverter.ffmpegRef
      (AudioConverter.loads_complete [2; 0; 1]
         (AudioConverter.dispatch_window 3 AudioConverter.fresh).1) = last [2; 0; 1]
  ∧ is_Some (last [2; 0; 1])
  ∧ AudioConverter.dispatch_window 2
      (AudioConverter.loads_complete [2; 0; 1]
         (AudioConverter.dispatch_window 3 AudioConverter.fresh).1)
    = (AudioConverter.loads_complete [2; 0; 1]
         (AudioConverter.dispatch_window 3 AudioConverter.fresh).1,
       replicate 2 None).
Proof.
  apply (engines_are_built_in_the_first_window_only 3 2 [2; 0; 1]); [lia|].
  simpl. by rewrite (Permutation_swap 0 2 [1]), (Permutation_swap 1 2 []).
Defined.

(** ** The engine's file system *)






(** ** The page: theme preference *)

(** X20.  The theme survives a reload: what [toggleTheme] stores is what the
    effect on mount reads back.  Toggling twice gives back the mode,
    toggling writes under the key ["debucon-theme"] only, and a store
    without that key, or with any value other than ["dark"], starts the
    page in light mode. *)
Theorem the_theme_survives_a_reload (st : Home.State) :
  Home.isDarkMode (Home.mount (Home.localStorage (Home.toggleTheme st)))
  = Home.isDarkMode (Home.toggleTheme st)
  ∧ Home.isDarkMode (Home.toggleTheme (Home.toggleTheme st)) = Home.isDarkMode st
  ∧ (∀ key, key ≠ "debucon-theme" →
       Home.localStorage (Home.toggleTheme st) !! key = Home.localStorage st !! key)
  ∧ (∀ storage, Home.localStorage (Home.mount storage) = storage
       ∧ (Home.isDarkMode (Home.mount storage) = true
          ↔ storage !! "debucon-theme" = Some "dark")).
Proof.
  split; [|split; [|split]].
  - unfold Home.mount, Home.toggleTheme. simpl. rewrite lookup_insert_eq.
    by destruct (Home.isDarkMode st).
  - simpl. apply negb_involutive.
  - intros key Hkey. simpl. by rewrite lookup_insert_ne.
  - intros storage. unfold Home.mount. case_bool_decide as Hdark; simpl.
    + done.
    + split; [done|]. split; [done|]. intros ?. by destruct Hdark.
Qed.

(** ** The two versions of the endpoint *)

(** X21.  What the optimized route asks of the library is bounded: the quality
    lies between 1 and 100, and the output box is at most 8192 by 8192
    ([fit: inside]) or the 256 by 256 box of an icon.  No resize is asked
    only when the library reports no size, a zero size, or a size within
    8192 by 8192. *)
Theorem the_output_box_is_bounded targetFormat quality m rs enc actualFormat buffer :
  Endpoint.select_encoder_optimized targetFormat quality (Endpoint.resizeOptions m)
  = Some (rs, enc, actualFormat) →
  quality_in_range (Endpoint.mkSharpCall buffer rs enc)
  ∧ match rs with
    | Endpoint.NoResize =>
        ∀ w h, Endpoint.width m = Some w → Endpoint.height m = Some h →
               w ≠ 0%Z → h ≠ 0%Z → (w ≤ 8192 ∧ h ≤ 8192)%Z
    | Endpoint.Inside w h =>
        (w ≤ 8192 ∧ h ≤ 8192)%Z
        ∧ ∃ w0 h0, Endpoint.width m = Some w0 ∧ Endpoint.height m = Some h0
                   ∧ w = Z.min w0 8192 ∧ h = Z.min h0 8192
                   ∧ (8192 < w0 ∨ 8192 < h0)%Z
    | Endpoint.Contain w h =>
        w = 256%Z ∧ h = 256%Z ∧ JS.toLowerCase targetFormat = "ico"
    end.
Proof.
  intros Hsel. split.
  { by eapply select_encoder_optimized_range. }
  assert (Hrs : rs = Endpoint.resizeOptions m
                ∨ (rs = Endpoint.Contain 256 256
                   ∧ JS.toLowerCase targetFormat = "ico")).
  { revert Hsel. unfold Endpoint.select_encoder_optimized.
    repeat (case_match; [intros [= <- <- <-]; by left|]).
    case_match; [|done]. intros [= <- <- <-]. right. split; [done|].
    by apply String.eqb_eq. }
  destruct Hrs as [->|[-> Hico]]; [|done].
  unfold Endpoint.resizeOptions, Endpoint.maxDimension.
  destruct (Endpoint.width m) as [w|], (Endpoint.height m) as [h|]; try done.
  destruct (Z.eqb_spec w 0), (Z.eqb_spec h 0); simpl;
    try (intros w' h' [= <-] [= <-]; lia).
  destruct (Z.ltb_spec 8192 w), (Z.ltb_spec 8192 h); simpl;
    try (intros w' h' [= <-] [= <-]; lia);
    (split; [lia|]; exists w, h; repeat split; lia).
Qed.

Lemma the_output_box_is_bounded_witness :
  quality_in_range
    (Endpoint.mkSharpCall [] (Endpoint.Inside 8192 6000) (Endpoint.jpeg 100))
  ∧ ((8192 ≤ 8192 ∧ 6000 ≤ 8192)%Z
     ∧ ∃ w0 h0,
         Endpoint.width (Endpoint.mkMetadata (Some 9000%Z) (Some 6000%Z)) = Some w0
         ∧ Endpoint.height (Endpoint.mkMetadata (Some 9000%Z) (Some 6000%Z)) = Some h0
         ∧ 8192%Z = Z.min w0 8192 ∧ 6000%Z = Z.min h0 8192
         ∧ (8192 < w0 ∨ 8192 < h0)%Z).
Proof.
  apply (the_output_box_is_bounded "jpeg" 250
           (Endpoint.mkMetadata (Some 9000%Z) (Some 6000%Z))
           (Endpoint.Inside 8192 6000) (Endpoint.jpeg 100) "jpeg" []).
  reflexivity.
Defined.




(** ** The sequential component on the three-image batch *)

Lemma sequential_conversion_is_all_or_nothing_witness :
  ∃ out outs,
    out = SequentialImageConverter.convertImages "png" 100
            (λ _, Scenario.fetch) (λ i, "blob:" ++ JS.toString (N.of_nat i))
            (SequentialImageConverter.mkState
               [Scenario.photo; Scenario.broken; Scenario.drawing]
               Scenario.collision false)
    ∧ outs = imap (attempt "png" 100 (λ _, Scenario.fetch)
                     (λ i, "blob:" ++ JS.toString (N.of_nat i)))
                  [Scenario.photo; Scenario.broken; Scenario.drawing]
    ∧ SequentialImageConverter.isConverting
        (SequentialImageConverter.state out) = false
    ∧ SequentialImageConverter.selectedFiles
        (SequentialImageConverter.state out)
      = [Scenario.photo; Scenario.broken; Scenario.drawing]
    ∧ (Forall fulfilled outs →
         SequentialImageConverter.conversionResults
           (SequentialImageConverter.state out)
         = omap resolved_value outs
         ∧ SequentialImageConverter.alerted out = false
         ∧ SequentialImageConverter.requests out
           = SequentialImageConverter.formData_of "png" 100
               <$> [Scenario.photo; Scenario.broken; Scenario.drawing])
    ∧ (∀ k e, outs !! k = Some (Throw e) → Forall fulfilled (take k outs) →
         SequentialImageConverter.conversionResults
           (SequentialImageConverter.state out)
         = Scenario.collision
         ∧ SequentialImageConverter.alerted out = true
         ∧ SequentialImageConverter.requests out
           = SequentialImageConverter.formData_of "png" 100
               <$> take (S k) [Scenario.photo; Scenario.broken; Scenario.drawing]).
Proof.
  destruct (sequential_conversion_is_all_or_nothing "png" 100
              (λ _, Scenario.fetch) (λ i, "blob:" ++ JS.toString (N.of_nat i))
              (SequentialImageConverter.mkState
                 [Scenario.photo; Scenario.broken; Scenario.drawing]
                 Scenario.collision false)) as [_ H].
  apply H. discriminate.
Defined.

(** The second of the three files fails: the sequential component sends
    two requests, never the third, and keeps the two results it held. *)
Example sequential_batch_stops_at_the_second_file :
  let out :=
    SequentialImageConverter.convertImages "png" 100
      (λ _, Scenario.fetch) (λ i, "blob:" ++ JS.toString (N.of_nat i))
      (SequentialImageConverter.mkState
         [Scenario.photo; Scenario.broken; Scenario.drawing]
         Scenario.collision false) in
  SequentialImageConverter.alerted out = true
  ∧ length (SequentialImageConverter.requests out) = 2
  ∧ SequentialImageConverter.conversionResults (SequentialImageConverter.state out)
    = Scenario.collision.
Proof. by repeat split. Qed.


Lemma the_theme_survives_a_reload_witness :
  Home.isDarkMode
    (Home.mount (Home.localStorage (Home.toggleTheme (Home.mount ∅)))) = true
  ∧ Home.localStorage (Home.toggleTheme (Home.mount {["lang" := "en"]})) !! "lang"
    = Some "en".
Proof.
  destruct (the_theme_survives_a_reload (Home.mount ∅)) as (H1 & _).
  destruct (the_theme_survives_a_reload (Home.mount {["lang" := "en"]}))
    as (_ & _ & H3 & _).
  split; [exact H1|]. rewrite H3; [reflexivity|discriminate].
Defined.
